(** * Shadow-framebuffer refresh of the Cirrus driver (cir_shadow.c)

    A shallow embedding of the five refresh routines and of the pointer
    transform of [cir_shadow.c], with the properties its specification
    states about them.

    Conventions of the embedding.
    - Box coordinates ([short] in a [BoxRec]), screen dimensions and
      pitches are integers in [Z]; the shifts and masks of the source are
      [Z.shiftr], [Z.shiftl], [Z.land], [Z.lnot], which on [Z] agree with
      two's complement arithmetic.
    - The pointer transform takes raw [int] coordinates: it is given twice,
      with the subtractions of the source over the integers
      ([cirPointerMoved], the routine wherever they do not overflow) and
      with the 32-bit two's complement arithmetic of [int] written out
      ([cirPointerMoved_int]).
    - A buffer is a byte memory indexed by the byte offset from its base
      pointer ([ShadowPtr] for the shadow, [FbBase] for the framebuffer);
      the two buffers are distinct objects.  Multi-byte accesses are
      little-endian, the byte order of the machines this driver runs on.
    - A [CARD32] store keeps the low 32 bits of the value it is given.
    - Every access the code performs is recorded, in program order, in the
      trace of the machine, so that claims about which bytes are read or
      written are statements about that trace.
    - [while (n--)] with a negative [n] does not terminate within the
      program's defined behaviour: the model yields [None]. *)

From Stdlib Require Import ZArith List Lia Bool.
From Stdlib Require Import Strings.Byte.
Import ListNotations.
Local Open Scope Z_scope.

(* ================================================================= *)
(** ** Bytes and byte memories *)

Definition mem : Type := Z -> byte.

Definition byte_to_Z (b : byte) : Z := Z.of_N (Byte.to_N b).

Definition Z_to_byte (z : Z) : byte :=
  match Byte.of_N (Z.to_N (Z.land z 255)) with
  | Some b => b
  | None => x00
  end.

(** Byte [k] (little-endian) of the value [v]. *)
Definition byte_of (v k : Z) : byte := Z_to_byte (Z.shiftr v (8 * k)).

(** The [n]-byte little-endian value found at offset [a]. *)
Fixpoint peek (m : mem) (a : Z) (n : nat) : Z :=
  match n with
  | O => 0
  | S k => Z.lor (byte_to_Z (m a)) (Z.shiftl (peek m (a + 1) k) 8)
  end.

(** Writing the [w] low bytes of [v] at offset [a]. *)
Definition poke (a w v : Z) (m : mem) : mem :=
  fun p => if (a <=? p) && (p <? a + w) then byte_of v (p - a) else m p.

(* ================================================================= *)
(** ** Accesses, traces and the machine *)

(** [Load a w]: [w] bytes read from the shadow buffer at offset [a].
    [Store a w v]: the [w] low bytes of [v] written to the framebuffer at
    offset [a]. *)
Inductive event : Type :=
| Load (a w : Z)
| Store (a w v : Z).

Definition apply_event (fb : mem) (e : event) : mem :=
  match e with
  | Load _ _ => fb
  | Store a w v => poke a w v fb
  end.

Definition replay (es : list event) (fb : mem) : mem :=
  fold_left apply_event es fb.

Record machine : Type := { FbBase : mem; trace : list event }.

Definition emit (es : list event) (m : machine) : machine :=
  {| FbBase := replay es (FbBase m); trace := trace m ++ es |}.

(** Computations over the machine that may fail to return. *)
Definition M (A : Type) : Type := machine -> option (A * machine).

Definition ret {A} (a : A) : M A := fun m => Some (a, m).

Definition bind {A B} (c : M A) (k : A -> M B) : M B :=
  fun m => match c m with
           | Some (a, m') => k a m'
           | None => None
           end.

Definition diverge {A} : M A := fun _ => None.

Notation "x <- c ;; k" := (bind c (fun x => k))
  (at level 61, c at next level, right associativity).
Notation "' pat <- c ;; k" := (bind c (fun x => match x with pat => k end))
  (at level 61, pat pattern, c at next level, right associativity).

Definition load (sh : mem) (n : nat) (a : Z) : M Z :=
  fun m => Some (peek sh a n, emit [Load a (Z.of_nat n)] m).

Definition wrap32 (v : Z) : Z := v mod 2 ^ 32.

Definition store32 (a v : Z) : M unit :=
  fun m => Some (tt, emit [Store a 4 (wrap32 v)] m).

Definition store8 (a v : Z) : M unit :=
  fun m => Some (tt, emit [Store a 1 v] m).

(** [n] rounds of a loop body. *)
Fixpoint iterate {S} (n : nat) (body : S -> M S) (s : S) : M S :=
  match n with
  | O => ret s
  | S k => s' <- body s ;; iterate k body s'
  end.

(** [while (n--) body]. *)
Definition while_dec {S} (n : Z) (body : S -> M S) (s : S) : M S :=
  if n <? 0 then diverge else iterate (Z.to_nat n) body s.

(** [while (num--) { ...; pbox++; }] over the [num] boxes at [pbox]. *)
Fixpoint for_boxes {B} (f : B -> M unit) (pbox : list B) : M unit :=
  match pbox with
  | [] => ret tt
  | b :: rest => _ <- f b ;; for_boxes f rest
  end.

(** [memcpy(dst, src, n)] between the two (distinct) buffers, byte by
    byte; a negative [n] is a huge [size_t]. *)
Definition memcpy (sh : mem) (dst src n : Z) : M unit :=
  _ <- while_dec n (fun k =>
         v <- load sh 1 (src + k) ;;
         _ <- store8 (dst + k) v ;;
         ret (k + 1)) 0 ;;
  ret tt.

(** [b0 | (b1 << 8) | (b2 << 16) | (b3 << 24)]. *)
Definition pack4 (b0 b1 b2 b3 : Z) : Z :=
  Z.lor (Z.lor (Z.lor b0 (Z.shiftl b1 8)) (Z.shiftl b2 16)) (Z.shiftl b3 24).

(** Pointer arithmetic on a pointer to elements of [sz] bytes. *)
Definition padd (sz p k : Z) : Z := p + sz * k.
Notation "p +[ sz ] k" := (padd sz p k) (at level 50, left associativity).

(* ================================================================= *)
(** ** The driver's records *)

Record BoxRec : Type := { x1 : Z; y1 : Z; x2 : Z; y2 : Z }.

Record ScreenRec : Type := { width : Z; height : Z }.

Record ScrnInfoRec : Type := {
  bitsPerPixel : Z;
  displayWidth : Z;
  virtualX : Z;
  virtualY : Z;
  pScreen : ScreenRec
}.

Record CirRec : Type := {
  ShadowPtr : mem;
  ShadowPitch : Z;
  rotate : Z
}.

(* ================================================================= *)
(** ** The routines of cir_shadow.c *)

Section Driver.

(** The [BitmapBytePad] macro comes from the server's headers: the byte
    length of a scanline of the given number of bits, padded. *)
Variable BitmapBytePad : Z -> Z.

Definition cirRefreshArea (pScrn : ScrnInfoRec) (pCir : CirRec)
    (pbox : list BoxRec) : M unit :=
  let Bpp := Z.shiftr (bitsPerPixel pScrn) 3 in
  let FBPitch := BitmapBytePad (displayWidth pScrn * bitsPerPixel pScrn) in
  for_boxes (fun pbox =>
    let width := (x2 pbox - x1 pbox) * Bpp in
    let height := y2 pbox - y1 pbox in
    let src := y1 pbox * ShadowPitch pCir + x1 pbox * Bpp in
    let dst := y1 pbox * FBPitch + x1 pbox * Bpp in
    _ <- while_dec height (fun '(src, dst) =>
           _ <- memcpy (ShadowPtr pCir) dst src width ;;
           ret (src + ShadowPitch pCir, dst + FBPitch)) (src, dst) ;;
    ret tt) pbox.

(** The pointer transform, its subtractions read over the integers: this
    is the routine for all coordinates for which [height - y - 1] and
    [width - x - 1] fit in an [int], among them all positions on the
    screen.  [cirPointerMoved_int], further down, has the arithmetic of
    [int] for the other inputs. *)
Definition cirPointerMoved {R} (pScrn : ScrnInfoRec) (pCir : CirRec)
    (PointerMoved : Z -> Z -> R) (x y : Z) : R :=
  let '(newX, newY) :=
    if rotate pCir =? 1
    then (height (pScreen pScrn) - y - 1, x)
    else (y, width (pScreen pScrn) - x - 1) in
  PointerMoved newX newY.

Definition cirRefreshArea8 (pScrn : ScrnInfoRec) (pCir : CirRec)
    (pbox : list BoxRec) : M unit :=
  let sh := ShadowPtr pCir in
  let dstPitch := displayWidth pScrn in
  let srcPitch := - rotate pCir * ShadowPitch pCir in
  for_boxes (fun pbox =>
    let width := x2 pbox - x1 pbox in
    let y1 := Z.land (y1 pbox) (Z.lnot 3) in
    let y2 := Z.land (y2 pbox + 3) (Z.lnot 3) in
    let height := Z.shiftr (y2 - y1) 2 in
    let '(dstPtr, srcPtr) :=
      if rotate pCir =? 1
      then (0 +[1] (x1 pbox * dstPitch) +[1] virtualX pScrn +[1] (- y2),
            0 +[1] ((1 - y2) * srcPitch) +[1] x1 pbox)
      else (0 +[1] ((virtualY pScrn - x2 pbox) * dstPitch) +[1] y1,
            0 +[1] (y1 * srcPitch) +[1] x2 pbox +[1] (- 1)) in
    _ <- while_dec width (fun '(srcPtr, dstPtr) =>
           _ <- while_dec height (fun '(src, dst) =>
                  s0 <- load sh 1 src ;;
                  s1 <- load sh 1 (src +[1] srcPitch) ;;
                  s2 <- load sh 1 (src +[1] (srcPitch * 2)) ;;
                  s3 <- load sh 1 (src +[1] (srcPitch * 3)) ;;
                  _ <- store32 dst (pack4 s0 s1 s2 s3) ;;
                  ret (src +[1] (srcPitch * 4), dst +[4] 1))
                (srcPtr, dstPtr) ;;
           ret (srcPtr +[1] rotate pCir, dstPtr +[1] dstPitch))
         (srcPtr, dstPtr) ;;
    ret tt) pbox.

Definition cirRefreshArea16 (pScrn : ScrnInfoRec) (pCir : CirRec)
    (pbox : list BoxRec) : M unit :=
  let sh := ShadowPtr pCir in
  let dstPitch := displayWidth pScrn in
  let srcPitch := Z.shiftr (- rotate pCir * ShadowPitch pCir) 1 in
  for_boxes (fun pbox =>
    let width := x2 pbox - x1 pbox in
    let y1 := Z.land (y1 pbox) (Z.lnot 1) in
    let y2 := Z.land (y2 pbox + 1) (Z.lnot 1) in
    let height := Z.shiftr (y2 - y1) 1 in
    let '(dstPtr, srcPtr) :=
      if rotate pCir =? 1
      then (0 +[2] (x1 pbox * dstPitch) +[2] virtualX pScrn +[2] (- y2),
            0 +[2] ((1 - y2) * srcPitch) +[2] x1 pbox)
      else (0 +[2] ((virtualY pScrn - x2 pbox) * dstPitch) +[2] y1,
            0 +[2] (y1 * srcPitch) +[2] x2 pbox +[2] (- 1)) in
    _ <- while_dec width (fun '(srcPtr, dstPtr) =>
           _ <- while_dec height (fun '(src, dst) =>
                  s0 <- load sh 2 src ;;
                  s1 <- load sh 2 (src +[2] srcPitch) ;;
                  _ <- store32 dst (Z.lor s0 (Z.shiftl s1 16)) ;;
                  ret (src +[2] (srcPitch * 2), dst +[4] 1))
                (srcPtr, dstPtr) ;;
           ret (srcPtr +[2] rotate pCir, dstPtr +[2] dstPitch))
         (srcPtr, dstPtr) ;;
    ret tt) pbox.

Definition cirRefreshArea24 (pScrn : ScrnInfoRec) (pCir : CirRec)
    (pbox : list BoxRec) : M unit :=
  let sh := ShadowPtr pCir in
  let dstPitch := BitmapBytePad (displayWidth pScrn * 24) in
  let srcPitch := - rotate pCir * ShadowPitch pCir in
  for_boxes (fun pbox =>
    let width := x2 pbox - x1 pbox in
    let y1 := Z.land (y1 pbox) (Z.lnot 3) in
    let y2 := Z.land (y2 pbox + 3) (Z.lnot 3) in
    let height := Z.shiftr (y2 - y1) 2 in
    let '(dstPtr, srcPtr) :=
      if rotate pCir =? 1
      then (0 +[1] (x1 pbox * dstPitch) +[1] ((virtualX pScrn - y2) * 3),
            0 +[1] ((1 - y2) * srcPitch) +[1] (x1 pbox * 3))
      else (0 +[1] ((virtualY pScrn - x2 pbox) * dstPitch) +[1] (y1 * 3),
            0 +[1] (y1 * srcPitch) +[1] (x2 pbox * 3) +[1] (- 3)) in
    _ <- while_dec width (fun '(srcPtr, dstPtr) =>
           _ <- while_dec height (fun '(src, dst) =>
                  a0 <- load sh 1 src ;;
                  a1 <- load sh 1 (src +[1] 1) ;;
                  a2 <- load sh 1 (src +[1] 2) ;;
                  a3 <- load sh 1 (src +[1] srcPitch) ;;
                  _ <- store32 (dst +[4] 0) (pack4 a0 a1 a2 a3) ;;
                  b0 <- load sh 1 (src +[1] (srcPitch + 1)) ;;
                  b1 <- load sh 1 (src +[1] (srcPitch + 2)) ;;
                  b2 <- load sh 1 (src +[1] (srcPitch * 2)) ;;
                  b3 <- load sh 1 (src +[1] (srcPitch * 2 + 1)) ;;
                  _ <- store32 (dst +[4] 1) (pack4 b0 b1 b2 b3) ;;
                  c0 <- load sh 1 (src +[1] (srcPitch * 2 + 2)) ;;
                  c1 <- load sh 1 (src +[1] (srcPitch * 3)) ;;
                  c2 <- load sh 1 (src +[1] (srcPitch * 3 + 1)) ;;
                  c3 <- load sh 1 (src +[1] (srcPitch * 3 + 2)) ;;
                  _ <- store32 (dst +[4] 2) (pack4 c0 c1 c2 c3) ;;
                  ret (src +[1] (srcPitch * 4), dst +[4] 3))
                (srcPtr, dstPtr) ;;
           ret (srcPtr +[1] (rotate pCir * 3), dstPtr +[1] dstPitch))
         (srcPtr, dstPtr) ;;
    ret tt) pbox.

Definition cirRefreshArea32 (pScrn : ScrnInfoRec) (pCir : CirRec)
    (pbox : list BoxRec) : M unit :=
  let sh := ShadowPtr pCir in
  let dstPitch := displayWidth pScrn in
  let srcPitch := Z.shiftr (- rotate pCir * ShadowPitch pCir) 2 in
  for_boxes (fun pbox =>
    let width := x2 pbox - x1 pbox in
    let height := y2 pbox - y1 pbox in
    let '(dstPtr, srcPtr) :=
      if rotate pCir =? 1
      then (0 +[4] (x1 pbox * dstPitch) +[4] virtualX pScrn
              +[4] (- y2 pbox),
            0 +[4] ((1 - y2 pbox) * srcPitch) +[4] x1 pbox)
      else (0 +[4] ((virtualY pScrn - x2 pbox) * dstPitch) +[4] y1 pbox,
            0 +[4] (y1 pbox * srcPitch) +[4] x2 pbox +[4] (- 1)) in
    _ <- while_dec width (fun '(srcPtr, dstPtr) =>
           _ <- while_dec height (fun '(src, dst) =>
                  v <- load sh 4 src ;;
                  _ <- store32 dst v ;;
                  ret (src +[4] srcPitch, dst +[4] 1))
                (srcPtr, dstPtr) ;;
           ret (srcPtr +[4] rotate pCir, dstPtr +[4] dstPitch))
         (srcPtr, dstPtr) ;;
    ret tt) pbox.

End Driver.

(* ================================================================= *)
(** ** Pixel formats and dispatch *)

Inductive depth : Type := bpp8 | bpp16 | bpp24 | bpp32.

(** Bytes per pixel. *)
Definition Bpp_of (d : depth) : Z :=
  match d with bpp8 => 1 | bpp16 => 2 | bpp24 => 3 | bpp32 => 4 end.

(** Pixels per packing group: the number of source rows one inner-loop
    round of the blitter consumes. *)
Definition group_of (d : depth) : Z :=
  match d with bpp8 => 4 | bpp16 => 2 | bpp24 => 4 | bpp32 => 1 end.

(** The row range the blitter for [d] works on. *)
Definition row_lo (d : depth) (y : Z) : Z :=
  Z.land y (Z.lnot (group_of d - 1)).
Definition row_hi (d : depth) (y : Z) : Z :=
  Z.land (y + (group_of d - 1)) (Z.lnot (group_of d - 1)).

(** The shadow pitch is a whole number of the elements the blitter for
    [d] addresses the shadow with ([CARD16] at 16 bpp, [CARD32] at 32). *)
Definition pitch_aligned (d : depth) (pitch : Z) : Prop :=
  match d with
  | bpp8 | bpp24 => True
  | bpp16 => pitch mod 2 = 0
  | bpp32 => pitch mod 4 = 0
  end.

Section Dispatch.

Variable BitmapBytePad : Z -> Z.

(** Modelled from the spec: the Orchestrator's choice of the rotating
    blitter that matches the bit depth (the driver code that installs the
    refresh routine is not part of cir_shadow.c). *)
Definition rotating_blitter (d : depth)
  : ScrnInfoRec -> CirRec -> list BoxRec -> M unit :=
  match d with
  | bpp8 => cirRefreshArea8
  | bpp16 => cirRefreshArea16
  | bpp24 => cirRefreshArea24 BitmapBytePad
  | bpp32 => cirRefreshArea32
  end.

Inductive engine : Type := RectangleCopier | RotatingBlitter (d : depth).

Definition refresh (e : engine)
  : ScrnInfoRec -> CirRec -> list BoxRec -> M unit :=
  match e with
  | RectangleCopier => cirRefreshArea BitmapBytePad
  | RotatingBlitter d => rotating_blitter d
  end.

(** Byte distance between two framebuffer scanlines, as the blitter for
    [d] steps [dstPtr]. *)
Definition fb_pitch (d : depth) (pScrn : ScrnInfoRec) : Z :=
  match d with
  | bpp8 => displayWidth pScrn
  | bpp16 => 2 * displayWidth pScrn
  | bpp24 => BitmapBytePad (displayWidth pScrn * 24)
  | bpp32 => 4 * displayWidth pScrn
  end.

(** Byte distance the blitter for [d] steps [src] by per source row
    (signed: upwards under Rotate90). *)
Definition src_pitch (d : depth) (pCir : CirRec) : Z :=
  match d with
  | bpp8 | bpp24 => - rotate pCir * ShadowPitch pCir
  | bpp16 => 2 * Z.shiftr (- rotate pCir * ShadowPitch pCir) 1
  | bpp32 => 4 * Z.shiftr (- rotate pCir * ShadowPitch pCir) 2
  end.

(* ================================================================= *)
(** ** Closed forms of the traces *)

(** Concatenation of [f 0], ..., [f (n-1)]. *)
Definition tab {A} (n : nat) (f : Z -> list A) : list A :=
  flat_map (fun i => f (Z.of_nat i)) (seq 0 n).

(** The accesses of one round of the innermost loop, with [src] at [s],
    [dst] at [t] and [P] the byte distance between source rows. *)
Definition group_events (d : depth) (sh : mem) (P s t : Z) : list event :=
  match d with
  | bpp8 =>
      [Load s 1; Load (s + P) 1; Load (s + P * 2) 1; Load (s + P * 3) 1;
       Store t 4 (wrap32 (pack4 (peek sh s 1) (peek sh (s + P) 1)
                                (peek sh (s + P * 2) 1)
                                (peek sh (s + P * 3) 1)))]
  | bpp16 =>
      [Load s 2; Load (s + P) 2;
       Store t 4 (wrap32 (Z.lor (peek sh s 2)
                                (Z.shiftl (peek sh (s + P) 2) 16)))]
  | bpp24 =>
      [Load s 1; Load (s + 1) 1; Load (s + 2) 1; Load (s + P) 1;
       Store t 4 (wrap32 (pack4 (peek sh s 1) (peek sh (s + 1) 1)
                                (peek sh (s + 2) 1) (peek sh (s + P) 1)));
       Load (s + (P + 1)) 1; Load (s + (P + 2)) 1; Load (s + P * 2) 1;
       Load (s + (P * 2 + 1)) 1;
       Store (t + 4) 4
             (wrap32 (pack4 (peek sh (s + (P + 1)) 1)
                            (peek sh (s + (P + 2)) 1)
                            (peek sh (s + P * 2) 1)
                            (peek sh (s + (P * 2 + 1)) 1)));
       Load (s + (P * 2 + 2)) 1; Load (s + P * 3) 1;
       Load (s + (P * 3 + 1)) 1; Load (s + (P * 3 + 2)) 1;
       Store (t + 8) 4
             (wrap32 (pack4 (peek sh (s + (P * 2 + 2)) 1)
                            (peek sh (s + P * 3) 1)
                            (peek sh (s + (P * 3 + 1)) 1)
                            (peek sh (s + (P * 3 + 2)) 1)))]
  | bpp32 => [Load s 4; Store t 4 (wrap32 (peek sh s 4))]
  end.

(** Where the blitter for [d] points [srcPtr] and [dstPtr] before its
    column loop (byte offsets). *)
Definition src_start (d : depth) (pCir : CirRec) (b : BoxRec) : Z :=
  if rotate pCir =? 1
  then (1 - row_hi d (y2 b)) * src_pitch d pCir + x1 b * Bpp_of d
  else row_lo d (y1 b) * src_pitch d pCir + (x2 b - 1) * Bpp_of d.

Definition dst_start (d : depth) (pScrn : ScrnInfoRec) (pCir : CirRec)
    (b : BoxRec) : Z :=
  if rotate pCir =? 1
  then x1 b * fb_pitch d pScrn + (virtualX pScrn - row_hi d (y2 b)) * Bpp_of d
  else (virtualY pScrn - x2 b) * fb_pitch d pScrn + row_lo d (y1 b) * Bpp_of d.

(** Rounds of the innermost loop per column. *)
Definition rounds (d : depth) (b : BoxRec) : Z :=
  (row_hi d (y2 b) - row_lo d (y1 b)) / group_of d.

(** The accesses of the blitter for [d] on one box, in program order. *)
Definition blit_events (d : depth) (pScrn : ScrnInfoRec) (pCir : CirRec)
    (b : BoxRec) : list event :=
  tab (Z.to_nat (x2 b - x1 b)) (fun i =>
    tab (Z.to_nat (rounds d b)) (fun j =>
      group_events d (ShadowPtr pCir) (src_pitch d pCir)
        (src_start d pCir b + rotate pCir * Bpp_of d * i
           + group_of d * src_pitch d pCir * j)
        (dst_start d pScrn pCir b + fb_pitch d pScrn * i
           + group_of d * Bpp_of d * j))).

(** The accesses of the rectangle copier on one box. *)
Definition copy_events (pScrn : ScrnInfoRec) (pCir : CirRec) (b : BoxRec)
  : list event :=
  let Bpp := Z.shiftr (bitsPerPixel pScrn) 3 in
  let FBPitch := BitmapBytePad (displayWidth pScrn * bitsPerPixel pScrn) in
  tab (Z.to_nat (y2 b - y1 b)) (fun r =>
    tab (Z.to_nat ((x2 b - x1 b) * Bpp)) (fun k =>
      [Load ((y1 b + r) * ShadowPitch pCir + x1 b * Bpp + k) 1;
       Store ((y1 b + r) * FBPitch + x1 b * Bpp + k) 1
             (peek (ShadowPtr pCir)
                   ((y1 b + r) * ShadowPitch pCir + x1 b * Bpp + k) 1)])).

Definition engine_events (e : engine) (pScrn : ScrnInfoRec) (pCir : CirRec)
    (b : BoxRec) : list event :=
  match e with
  | RectangleCopier => copy_events pScrn pCir b
  | RotatingBlitter d => blit_events d pScrn pCir b
  end.

End Dispatch.

(* ================================================================= *)
(** ** Caller contracts *)

(** The loops of a refresh routine return on this box: the box is not
    inverted (its row range may be, when it is empty in [x]). *)
Definition box_runs (b : BoxRec) : Prop :=
  x1 b <= x2 b /\ (x1 b < x2 b -> y1 b <= y2 b).

(** The loops of the rectangle copier return on this box. *)
Definition copy_runs (pScrn : ScrnInfoRec) (b : BoxRec) : Prop :=
  y1 b <= y2 b /\
  (y1 b < y2 b -> 0 <= (x2 b - x1 b) * Z.shiftr (bitsPerPixel pScrn) 3).

Definition engine_runs (e : engine) (pScrn : ScrnInfoRec) (b : BoxRec)
  : Prop :=
  match e with
  | RectangleCopier => copy_runs pScrn b
  | RotatingBlitter _ => box_runs b
  end.

(* ================================================================= *)
(** ** What a trace leaves in the framebuffer *)

(** Whether the access writes the byte at offset [a], and which byte. *)
Definition covers (e : event) (a : Z) : bool :=
  match e with
  | Load _ _ => false
  | Store t w _ => (t <=? a) && (a <? t + w)
  end.

Definition written (e : event) (a : Z) : byte :=
  match e with
  | Load _ _ => x00
  | Store t _ v => byte_of v (a - t)
  end.

(** The byte the last write of the trace to offset [a] leaves there. *)
Fixpoint last_write (es : list event) (a : Z) : option byte :=
  match es with
  | [] => None
  | e :: rest =>
      match last_write rest a with
      | Some v => Some v
      | None => if covers e a then Some (written e a) else None
      end
  end.

(** Two traces that leave the same framebuffer behind. *)
Definition same_stores (es1 es2 : list event) : Prop :=
  forall a, last_write es1 a = last_write es2 a.

(** The byte offsets a trace writes, in order. *)
Definition bytes_written (es : list event) : list Z :=
  flat_map (fun e => match e with
                     | Load _ _ => []
                     | Store t w _ => map (fun k => t + Z.of_nat k)
                                          (seq 0 (Z.to_nat w))
                     end) es.

Definition is_store (e : event) : bool :=
  match e with Load _ _ => false | Store _ _ _ => true end.

(** Copying the [B] bytes of one pixel from shadow offset [s] to
    framebuffer offset [t], a byte at a time. *)
Definition copy_px (sh : mem) (B : Z) (s t : Z) : list event :=
  tab (Z.to_nat B) (fun c =>
    [Load (s + c) 1; Store (t + c) 1 (byte_to_Z (sh (s + c)))]).

(** The per-pixel copy of the rows of one packing group. *)
Definition ref_group (d : depth) (sh : mem) (P s t : Z) : list event :=
  tab (Z.to_nat (group_of d)) (fun r =>
    copy_px sh (Bpp_of d) (s + P * r) (t + Bpp_of d * r)).

(* ================================================================= *)
(** ** The rotation as a map on pixels *)

Section Reference.

Variable BitmapBytePad : Z -> Z.

(** Byte offset of shadow pixel [(x, y)]. *)
Definition src_px (d : depth) (pCir : CirRec) (x y : Z) : Z :=
  y * ShadowPitch pCir + x * Bpp_of d.

(** Byte offset of framebuffer pixel [(X, Y)]. *)
Definition fb_px (d : depth) (pScrn : ScrnInfoRec) (X Y : Z) : Z :=
  Y * fb_pitch BitmapBytePad d pScrn + X * Bpp_of d.

(** Where the rotation puts shadow pixel [(x, y)]: Rotate90 sends it to
    column [virtualX - 1 - y] of row [x], Rotate270 to column [y] of row
    [virtualY - 1 - x]. *)
Definition rot_px (pScrn : ScrnInfoRec) (pCir : CirRec) (x y : Z) : Z * Z :=
  if rotate pCir =? 1
  then (virtualX pScrn - 1 - y, x)
  else (y, virtualY pScrn - 1 - x).

Definition dst_px (d : depth) (pScrn : ScrnInfoRec) (pCir : CirRec)
    (x y : Z) : Z :=
  fb_px d pScrn (fst (rot_px pScrn pCir x y)) (snd (rot_px pScrn pCir x y)).

(** The unrolled per-pixel reference copy of a box: every pixel of the
    box's columns and of its (group-aligned) rows is copied, a byte at a
    time, to its rotated place; columns and rows are visited in the order
    the blitter visits them. *)
Definition ref_blit (d : depth) (pScrn : ScrnInfoRec) (pCir : CirRec)
    (b : BoxRec) : list event :=
  tab (Z.to_nat (x2 b - x1 b)) (fun i =>
    let x := if rotate pCir =? 1 then x1 b + i else x2 b - 1 - i in
    tab (Z.to_nat (row_hi d (y2 b) - row_lo d (y1 b))) (fun q =>
      let y := if rotate pCir =? 1
               then row_hi d (y2 b) - 1 - q
               else row_lo d (y1 b) + q in
      copy_px (ShadowPtr pCir) (Bpp_of d)
              (src_px d pCir x y) (dst_px d pScrn pCir x y))).

(** The box lies within the shadow (whose width is [virtualY] and whose
    height is [virtualX] under rotation), and so does its group-aligned row
    range; a framebuffer scanline holds [virtualX] pixels. *)
Definition blit_fits (d : depth) (pScrn : ScrnInfoRec) (b : BoxRec) : Prop :=
  0 <= x1 b /\ x2 b <= virtualY pScrn /\
  0 <= y1 b /\ row_hi d (y2 b) <= virtualX pScrn /\
  virtualX pScrn * Bpp_of d <= fb_pitch BitmapBytePad d pScrn.

End Reference.

(* ================================================================= *)
(** ** Rotating and rotating back *)

Section RoundTrip.

Variable BitmapBytePad : Z -> Z.

(** The screen record of a framebuffer [vx] pixels wide and [vy] high. *)
Definition screen (d : depth) (dw vx vy : Z) : ScrnInfoRec :=
  {| bitsPerPixel := 8 * Bpp_of d; displayWidth := dw;
     virtualX := vx; virtualY := vy;
     pScreen := {| width := vx; height := vy |} |}.

Definition full_box (w h : Z) : BoxRec :=
  {| x1 := 0; y1 := 0; x2 := w; y2 := h |}.

(** A fully dirty [w] x [h] shadow is blitted under Rotate90 into a
    framebuffer [h] wide and [w] high; that framebuffer, taken as the
    shadow of the next pass, is blitted fully dirty under Rotate270 into a
    framebuffer [w] wide and [h] high, which is returned. *)
Definition rot90_then_270 (d : depth) (sh : mem) (pitch w h dw1 dw2 : Z)
    (fb1 fb2 : mem) : option mem :=
  let pScrn1 := screen d dw1 h w in
  let pCir1 := {| ShadowPtr := sh; ShadowPitch := pitch; rotate := 1 |} in
  match rotating_blitter BitmapBytePad d pScrn1 pCir1 [full_box w h]
          {| FbBase := fb1; trace := [] |} with
  | None => None
  | Some (_, m1) =>
      let pScrn2 := screen d dw2 w h in
      let pCir2 := {| ShadowPtr := FbBase m1;
                      ShadowPitch := fb_pitch BitmapBytePad d pScrn1;
                      rotate := -1 |} in
      match rotating_blitter BitmapBytePad d pScrn2 pCir2 [full_box h w]
              {| FbBase := fb2; trace := [] |} with
      | None => None
      | Some (_, m2) => Some (FbBase m2)
      end
  end.

(** The round trip gives back every pixel of the shadow. *)
Definition round_trip_lossless (d : depth) (sh : mem)
    (pitch w h dw1 dw2 : Z) (fb1 fb2 : mem) : Prop :=
  exists out,
    rot90_then_270 d sh pitch w h dw1 dw2 fb1 fb2 = Some out /\
    forall x y c, 0 <= x < w -> 0 <= y < h -> 0 <= c < Bpp_of d ->
      out (fb_px BitmapBytePad d (screen d dw2 w h) x y + c)
      = sh (y * pitch + x * Bpp_of d + c).

End RoundTrip.

(* ================================================================= *)
(** ** Concrete inputs *)

(** Modelled from the spec: the pitch is "alignment-padded" and at least
    width x bytesPerPixel; the [BitmapBytePad] macro itself is in the
    server's headers.  At concrete inputs the padding is to whole 32-bit
    words: the byte length of [w] bits rounded up to a multiple of 4. *)
Definition pad32 (w : Z) : Z := Z.shiftl (Z.shiftr (w + 31) 5) 2.

(** A shadow whose byte at offset [a] is [a] modulo 256, and a cleared
    framebuffer. *)
Definition ramp : mem := fun a => Z_to_byte a.
Definition blank : mem := fun _ => x00.

(** The byte found at offset [a] of an optional memory. *)
Definition probe (o : option mem) (a : Z) : option Z :=
  option_map (fun fb => byte_to_Z (fb a)) o.

(* ================================================================= *)
(** ** Framebuffer extents, rows read, reflection *)

(** Offset [a] lies in one of the [rows] scanlines of a buffer of the
    given pitch, within the first [wbytes] bytes of that scanline. *)
Definition in_fb (pitch wbytes rows a : Z) : bool :=
  (0 <=? a / pitch) && (a / pitch <? rows) && (a mod pitch <? wbytes).

Section Extents.

Variable BitmapBytePad : Z -> Z.

(** The declared extents of the framebuffer an engine writes to:
    [virtualY] scanlines of [virtualX] pixels. *)
Definition fb_extent (e : engine) (pScrn : ScrnInfoRec) (a : Z) : bool :=
  match e with
  | RectangleCopier =>
      in_fb (BitmapBytePad (displayWidth pScrn * bitsPerPixel pScrn))
            (virtualX pScrn * Z.shiftr (bitsPerPixel pScrn) 3)
            (virtualY pScrn) a
  | RotatingBlitter d =>
      in_fb (fb_pitch BitmapBytePad d pScrn)
            (virtualX pScrn * Bpp_of d) (virtualY pScrn) a
  end.

(** The caller contract on a box: it is well formed and lies within the
    shadow, whose dimensions are the framebuffer's ([virtualX] by
    [virtualY]) without rotation and the transposed ones under rotation;
    a framebuffer scanline holds [virtualX] pixels. *)
Definition box_in_shadow (e : engine) (pScrn : ScrnInfoRec) (b : BoxRec)
  : Prop :=
  match e with
  | RectangleCopier =>
      0 <= x1 b <= x2 b /\ x2 b <= virtualX pScrn /\
      0 <= y1 b <= y2 b /\ y2 b <= virtualY pScrn /\
      0 <= bitsPerPixel pScrn /\
      virtualX pScrn * Z.shiftr (bitsPerPixel pScrn) 3
        <= BitmapBytePad (displayWidth pScrn * bitsPerPixel pScrn)
  | RotatingBlitter d =>
      0 <= x1 b <= x2 b /\ x2 b <= virtualY pScrn /\
      0 <= y1 b <= y2 b /\ y2 b <= virtualX pScrn /\
      virtualX pScrn * Bpp_of d <= fb_pitch BitmapBytePad d pScrn
  end.

(** The group-aligned row range of the box lies within the shadow too. *)
Definition rows_in_shadow (e : engine) (pScrn : ScrnInfoRec) (b : BoxRec)
  : Prop :=
  match e with
  | RectangleCopier => True
  | RotatingBlitter d => row_hi d (y2 b) <= virtualX pScrn
  end.

(** The refresh of one box returns, and every byte it stores lies within
    the framebuffer's extents. *)
Definition stores_within_fb (e : engine) (pScrn : ScrnInfoRec)
    (pCir : CirRec) (b : BoxRec) (m : machine) : Prop :=
  exists m' es,
    refresh BitmapBytePad e pScrn pCir [b] m = Some (tt, m') /\
    trace m' = trace m ++ es /\
    Forall (fun a => fb_extent e pScrn a = true) (bytes_written es).

(** Rotate270 gives what Rotate90 gives, reflected through the centre of
    the framebuffer: for every pixel of the box, the framebuffer pixel
    [(X, Y)] the Rotate270 blit writes it to holds what the Rotate90 blit
    leaves at [(virtualX - 1 - X, virtualY - 1 - Y)]. *)
Definition rot270_reflects_rot90 (d : depth) (pScrn : ScrnInfoRec)
    (sh : mem) (pitch : Z) (b : BoxRec) (m : machine) : Prop :=
  exists m90 m270,
    rotating_blitter BitmapBytePad d pScrn
      {| ShadowPtr := sh; ShadowPitch := pitch; rotate := 1 |} [b] m
    = Some (tt, m90) /\
    rotating_blitter BitmapBytePad d pScrn
      {| ShadowPtr := sh; ShadowPitch := pitch; rotate := -1 |} [b] m
    = Some (tt, m270) /\
    forall x y c,
      x1 b <= x < x2 b -> y1 b <= y < y2 b -> 0 <= c < Bpp_of d ->
      let X := y in
      let Y := virtualY pScrn - 1 - x in
      FbBase m270 (fb_px BitmapBytePad d pScrn X Y + c)
      = FbBase m90 (fb_px BitmapBytePad d pScrn
                      (virtualX pScrn - 1 - X) (virtualY pScrn - 1 - Y) + c).

End Extents.

(** The shadow scanlines a trace reads, each once, and those of them that
    lie outside the rows of the box. *)
Definition rows_read (pitch : Z) (es : list event) : list Z :=
  nodup Z.eq_dec
    (flat_map (fun e => match e with
                        | Load a _ => [a / pitch]
                        | Store _ _ _ => []
                        end) es).

Definition rows_beyond (pitch : Z) (b : BoxRec) (es : list event) : list Z :=
  filter (fun y => negb ((y1 b <=? y) && (y <? y2 b))) (rows_read pitch es).

(** The blit of one box reads at most [n] scanlines outside the rows of
    the box. *)
Definition reads_beyond_at_most (BitmapBytePad : Z -> Z) (n : Z)
    (d : depth) (pScrn : ScrnInfoRec) (pCir : CirRec) (b : BoxRec)
    (m : machine) : Prop :=
  exists m' es,
    rotating_blitter BitmapBytePad d pScrn pCir [b] m = Some (tt, m') /\
    trace m' = trace m ++ es /\
    Z.of_nat (length (rows_beyond (ShadowPitch pCir) b es)) <= n.

(* ================================================================= *)
(** ** Lists of boxes: what each box puts where *)

(** The trace stores byte [v] at offset [a]. *)
Definition writes (es : list event) (a : Z) (v : byte) : Prop :=
  exists e, In e es /\ covers e a = true /\ written e a = v.

(** The box with its rows widened to packing-group boundaries. *)
Definition widen (d : depth) (b : BoxRec) : BoxRec :=
  {| x1 := x1 b; y1 := row_lo d (y1 b);
     x2 := x2 b; y2 := row_hi d (y2 b) |}.

(** The configuration a rotating blitter is installed for: one of the two
    rotations, and a shadow pitch of whole elements. *)
Definition engine_ok (e : engine) (pCir : CirRec) : Prop :=
  match e with
  | RectangleCopier => True
  | RotatingBlitter d =>
      (rotate pCir = 1 \/ rotate pCir = -1) /\
      pitch_aligned d (ShadowPitch pCir)
  end.

Section Images.

Variable BitmapBytePad : Z -> Z.

(** Shadow byte [v] belongs at framebuffer offset [a] by box [b]: [a] is
    the place of a byte of a pixel of the box (rows widened, for a
    rotating blitter) and [v] is that byte of the shadow. *)
Definition byte_image (e : engine) (pScrn : ScrnInfoRec) (pCir : CirRec)
    (b : BoxRec) (a : Z) (v : byte) : Prop :=
  match e with
  | RectangleCopier =>
      let Bpp := Z.shiftr (bitsPerPixel pScrn) 3 in
      let FBPitch :=
        BitmapBytePad (displayWidth pScrn * bitsPerPixel pScrn) in
      exists y j,
        y1 b <= y < y2 b /\ x1 b * Bpp <= j < x2 b * Bpp /\
        a = y * FBPitch + j /\
        v = ShadowPtr pCir (y * ShadowPitch pCir + j)
  | RotatingBlitter d =>
      exists x y c,
        x1 b <= x < x2 b /\
        row_lo d (y1 b) <= y < row_hi d (y2 b) /\
        0 <= c < Bpp_of d /\
        a = dst_px BitmapBytePad d pScrn pCir x y + c /\
        v = ShadowPtr pCir (src_px d pCir x y + c)
  end.

(** The per-byte copy an engine's accesses on a box amount to. *)
Definition ref_events (e : engine) (pScrn : ScrnInfoRec) (pCir : CirRec)
    (b : BoxRec) : list event :=
  match e with
  | RectangleCopier => copy_events BitmapBytePad pScrn pCir b
  | RotatingBlitter d => ref_blit BitmapBytePad d pScrn pCir b
  end.

(** The box meets the caller contract and its rows, widened, stay within
    the shadow. *)
Definition box_fits (e : engine) (pScrn : ScrnInfoRec) (b : BoxRec)
  : Prop :=
  box_in_shadow BitmapBytePad e pScrn b /\ rows_in_shadow e pScrn b.

End Images.

(* ================================================================= *)
(** ** Two blits in a row *)

Section TwoPasses.

Variable BitmapBytePad : Z -> Z.

(** A fully dirty [w] x [h] shadow is blitted with rotation [r1] into a
    framebuffer [h] wide and [w] high, and that framebuffer, as the shadow
    of a second pass, is blitted fully dirty with rotation [r2] into a
    framebuffer [w] wide and [h] high, which is returned. *)
Definition blit_twice (d : depth) (r1 r2 : Z) (sh : mem)
    (pitch w h dw1 dw2 : Z) (fb1 fb2 : mem) : option mem :=
  let pScrn1 := screen d dw1 h w in
  let pCir1 := {| ShadowPtr := sh; ShadowPitch := pitch; rotate := r1 |} in
  match rotating_blitter BitmapBytePad d pScrn1 pCir1 [full_box w h]
          {| FbBase := fb1; trace := [] |} with
  | None => None
  | Some (_, m1) =>
      let pScrn2 := screen d dw2 w h in
      let pCir2 := {| ShadowPtr := FbBase m1;
                      ShadowPitch := fb_pitch BitmapBytePad d pScrn1;
                      rotate := r2 |} in
      match rotating_blitter BitmapBytePad d pScrn2 pCir2 [full_box h w]
              {| FbBase := fb2; trace := [] |} with
      | None => None
      | Some (_, m2) => Some (FbBase m2)
      end
  end.

End TwoPasses.

(* ================================================================= *)
(** ** Shadow extents *)

(** The byte offsets a trace reads, in order. *)
Definition bytes_read (es : list event) : list Z :=
  flat_map (fun e => match e with
                     | Load s w => map (fun k => s + Z.of_nat k)
                                       (seq 0 (Z.to_nat w))
                     | Store _ _ _ => []
                     end) es.

(** The declared extents of the shadow an engine reads: the framebuffer's
    dimensions without rotation, the transposed ones under rotation. *)
Definition shadow_extent (e : engine) (pScrn : ScrnInfoRec) (pCir : CirRec)
    (a : Z) : bool :=
  match e with
  | RectangleCopier =>
      in_fb (ShadowPitch pCir)
            (virtualX pScrn * Z.shiftr (bitsPerPixel pScrn) 3)
            (virtualY pScrn) a
  | RotatingBlitter d =>
      in_fb (ShadowPitch pCir) (virtualY pScrn * Bpp_of d)
            (virtualX pScrn) a
  end.

(** A shadow scanline holds the shadow's width in pixels. *)
Definition shadow_pitch_holds (e : engine) (pScrn : ScrnInfoRec)
    (pCir : CirRec) : Prop :=
  match e with
  | RectangleCopier =>
      virtualX pScrn * Z.shiftr (bitsPerPixel pScrn) 3 <= ShadowPitch pCir
  | RotatingBlitter d => virtualY pScrn * Bpp_of d <= ShadowPitch pCir
  end.

(* ================================================================= *)
(** ** The pointer transform in [int] arithmetic *)

Definition int_min : Z := - 2 ^ 31.
Definition int_max : Z := 2 ^ 31 - 1.

Definition in_int (z : Z) : Prop := int_min <= z <= int_max.

(** The [int] that is [z] modulo [2^32]: what a 32-bit two's complement
    machine leaves of the result [z] of an operation on [int]s. *)
Definition wrap_int (z : Z) : Z := (z + 2 ^ 31) mod 2 ^ 32 - 2 ^ 31.

(** [a - b] on [int]s. *)
Definition int_sub (a b : Z) : Z := wrap_int (a - b).

(** [cirPointerMoved] of cir_shadow.c with its [int] arithmetic:
    [height - y - 1] and [width - x - 1] are two subtractions on [int]s
    each. *)
Definition cirPointerMoved_int {R} (pScrn : ScrnInfoRec) (pCir : CirRec)
    (PointerMoved : Z -> Z -> R) (x y : Z) : R :=
  let '(newX, newY) :=
    if rotate pCir =? 1
    then (int_sub (int_sub (height (pScreen pScrn)) y) 1, x)
    else (y, int_sub (int_sub (width (pScreen pScrn)) x) 1) in
  PointerMoved newX newY.

(** The two branches as the specification writes them, over the
    integers. *)
Definition pointer_formula (pScrn : ScrnInfoRec) (pCir : CirRec) (x y : Z)
  : Z * Z :=
  if rotate pCir =? 1
  then (height (pScreen pScrn) - y - 1, x)
  else (y, width (pScreen pScrn) - x - 1).

(** The subtractions of the branch taken do not overflow. *)
Definition no_overflow (pScrn : ScrnInfoRec) (pCir : CirRec) (x y : Z)
  : Prop :=
  if rotate pCir =? 1
  then in_int (height (pScreen pScrn) - y) /\
       in_int (height (pScreen pScrn) - y - 1)
  else in_int (width (pScreen pScrn) - x) /\
       in_int (width (pScreen pScrn) - x - 1).

(* ================================================================= *)
(** ** Basic facts: bytes *)

Lemma byte_to_Z_range (b : byte) : 0 <= byte_to_Z b < 256.
Proof.
  unfold byte_to_Z. pose proof (Byte.to_N_bounded b). lia.
Qed.

Lemma byte_to_Z_inj (a b : byte) : byte_to_Z a = byte_to_Z b -> a = b.
Proof.
  unfold byte_to_Z. intros H. apply N2Z.inj in H.
  pose proof (Byte.of_to_N a) as Ha. rewrite H, Byte.of_to_N in Ha.
  congruence.
Qed.

Lemma land_255_range (z : Z) : 0 <= Z.land z 255 < 256.
Proof.
  change 255 with (Z.ones 8). rewrite Z.land_ones by lia.
  apply Z.mod_pos_bound. reflexivity.
Qed.

Lemma byte_to_Z_to_byte (z : Z) : byte_to_Z (Z_to_byte z) = Z.land z 255.
Proof.
  unfold Z_to_byte, byte_to_Z. pose proof (land_255_range z) as R.
  destruct (Byte.of_N (Z.to_N (Z.land z 255))) as [b|] eqn:E.
  - apply Byte.to_of_N in E. rewrite E. lia.
  - apply Byte.of_N_None_iff in E. lia.
Qed.

Lemma Z_to_byte_to_Z (b : byte) : Z_to_byte (byte_to_Z b) = b.
Proof.
  apply byte_to_Z_inj. rewrite byte_to_Z_to_byte.
  change 255 with (Z.ones 8). rewrite Z.land_ones by lia.
  apply Z.mod_small. apply byte_to_Z_range.
Qed.

Lemma byte_bit_out (b : byte) (n : Z) :
  n < 0 \/ 8 <= n -> Z.testbit (byte_to_Z b) n = false.
Proof.
  intros [H|H].
  - apply Z.testbit_neg_r. exact H.
  - pose proof (byte_to_Z_range b) as R.
    destruct (Z.eq_dec (byte_to_Z b) 0) as [E|E].
    + rewrite E. apply Z.bits_0.
    + apply Z.bits_above_log2; [lia|].
      assert (Z.log2 (byte_to_Z b) < 8); [|lia].
      apply Z.log2_lt_pow2; lia.
Qed.

(** A byte of a value is determined by its eight bits. *)
Lemma byte_of_bits (v k : Z) (b : byte) :
  0 <= k ->
  (forall n, 0 <= n < 8 ->
             Z.testbit v (n + 8 * k) = Z.testbit (byte_to_Z b) n) ->
  byte_of v k = b.
Proof.
  intros Hk H. unfold byte_of. apply byte_to_Z_inj.
  rewrite byte_to_Z_to_byte. apply Z.bits_inj'. intros n Hn.
  change 255 with (Z.ones 8).
  rewrite Z.land_spec, Z.testbit_ones_nonneg, Z.shiftr_spec by lia.
  destruct (Z.ltb_spec n 8).
  - rewrite andb_true_r. apply H. lia.
  - rewrite andb_false_r. symmetry. apply byte_bit_out. lia.
Qed.

(* ================================================================= *)
(** ** Basic facts: the machine and its loops *)

Lemma replay_app (es1 es2 : list event) (fb : mem) :
  replay (es1 ++ es2) fb = replay es2 (replay es1 fb).
Proof. apply fold_left_app. Qed.

Lemma emit_nil (m : machine) : emit [] m = m.
Proof. destruct m. unfold emit. simpl. now rewrite app_nil_r. Qed.

Lemma emit_emit (es1 es2 : list event) (m : machine) :
  emit es2 (emit es1 m) = emit (es1 ++ es2) m.
Proof.
  unfold emit. simpl. now rewrite replay_app, app_assoc.
Qed.

Lemma tab_S {A} (n : nat) (f : Z -> list A) :
  tab (S n) f = f 0 ++ tab n (fun i => f (i + 1)).
Proof.
  unfold tab. rewrite <- cons_seq, <- seq_shift. simpl. f_equal.
  rewrite flat_map_concat_map, map_map, <- flat_map_concat_map.
  apply flat_map_ext. intros i. f_equal. lia.
Qed.

Lemma tab_ext {A} (n : nat) (f g : Z -> list A) :
  (forall i, 0 <= i < Z.of_nat n -> f i = g i) -> tab n f = tab n g.
Proof.
  intros H. unfold tab. rewrite !flat_map_concat_map. f_equal.
  apply map_ext_in. intros i Hi. apply in_seq in Hi. apply H. lia.
Qed.

Lemma in_tab {A} (n : nat) (f : Z -> list A) (e : A) :
  In e (tab n f) <-> exists i, 0 <= i < Z.of_nat n /\ In e (f i).
Proof.
  unfold tab. rewrite in_flat_map. split.
  - intros (i & Hi & He). apply in_seq in Hi. exists (Z.of_nat i).
    split; [lia | exact He].
  - intros (i & Hi & He). exists (Z.to_nat i). split.
    + apply in_seq. lia.
    + rewrite Z2Nat.id by lia. exact He.
Qed.

(** A loop whose body advances two pointers by fixed steps and emits
    accesses that depend on the pointers only. *)
Lemma iterate_emit (f : Z -> Z -> list event) (ds dt : Z)
    (body : Z * Z -> M (Z * Z)) :
  (forall s t m, body (s, t) m = Some ((s + ds, t + dt), emit (f s t) m)) ->
  forall n s t m,
    iterate n body (s, t) m =
    Some ((s + ds * Z.of_nat n, t + dt * Z.of_nat n),
          emit (tab n (fun i => f (s + ds * i) (t + dt * i))) m).
Proof.
  intros Hbody. induction n as [|n IH]; intros s t m.
  - simpl. unfold ret. rewrite emit_nil. do 3 f_equal; lia.
  - cbn [iterate]. unfold bind. rewrite Hbody, IH, emit_emit, tab_S.
    do 2 f_equal.
    + f_equal; lia.
    + f_equal. f_equal.
      * f_equal; lia.
      * apply tab_ext. intros i _. f_equal; lia.
Qed.

Lemma while_dec_emit (f : Z -> Z -> list event) (ds dt : Z)
    (body : Z * Z -> M (Z * Z)) (n : Z) :
  (forall s t m, body (s, t) m = Some ((s + ds, t + dt), emit (f s t) m)) ->
  0 <= n ->
  forall s t m,
    while_dec n body (s, t) m =
    Some ((s + ds * n, t + dt * n),
          emit (tab (Z.to_nat n) (fun i => f (s + ds * i) (t + dt * i))) m).
Proof.
  intros Hbody Hn s t m. unfold while_dec.
  destruct (Z.ltb_spec n 0); [lia|].
  rewrite (iterate_emit f ds dt body Hbody). rewrite Z2Nat.id by lia.
  reflexivity.
Qed.

Lemma for_boxes_emit {B} (f : B -> M unit) (ev : B -> list event)
    (ok : B -> Prop) :
  (forall b m, ok b -> f b m = Some (tt, emit (ev b) m)) ->
  forall l m, Forall ok l ->
    for_boxes f l m = Some (tt, emit (flat_map ev l) m).
Proof.
  intros Hf. induction l as [|b l IH]; intros m Hl.
  - simpl. unfold ret. now rewrite emit_nil.
  - inversion Hl; subst. cbn [for_boxes flat_map]. unfold bind.
    rewrite Hf by assumption. rewrite IH by assumption.
    now rewrite emit_emit.
Qed.

(* ================================================================= *)
(** ** The row range: masks as rounding *)

Lemma land_lnot_ones (y k : Z) :
  0 <= k -> Z.land y (Z.lnot (Z.ones k)) = 2 ^ k * (y / 2 ^ k).
Proof.
  intros Hk. rewrite Z.mul_comm, <- Z.shiftr_div_pow2, <- Z.shiftl_mul_pow2
    by lia.
  apply Z.bits_inj'. intros n Hn.
  rewrite Z.land_spec, Z.lnot_spec, Z.testbit_ones_nonneg by lia.
  destruct (Z.ltb_spec n k).
  - rewrite Z.shiftl_spec_low by lia. apply andb_false_r.
  - rewrite Z.shiftl_spec, Z.shiftr_spec by lia.
    rewrite andb_true_r. f_equal. lia.
Qed.

Lemma row_lo_eq (d : depth) (y : Z) :
  row_lo d y = group_of d * (y / group_of d).
Proof.
  unfold row_lo. destruct d; cbn [group_of].
  - apply (land_lnot_ones y 2). lia.
  - apply (land_lnot_ones y 1). lia.
  - apply (land_lnot_ones y 2). lia.
  - change (Z.lnot (1 - 1)) with (-1). rewrite Z.land_m1_r, Z.div_1_r. lia.
Qed.

Lemma row_hi_eq (d : depth) (y : Z) :
  row_hi d y = group_of d * ((y + (group_of d - 1)) / group_of d).
Proof.
  unfold row_hi. destruct d; cbn [group_of].
  - apply (land_lnot_ones (y + 3) 2). lia.
  - apply (land_lnot_ones (y + 1) 1). lia.
  - apply (land_lnot_ones (y + 3) 2). lia.
  - change (Z.lnot (1 - 1)) with (-1). rewrite Z.land_m1_r, Z.div_1_r. lia.
Qed.

Lemma group_of_pos (d : depth) : 0 < group_of d.
Proof. destruct d; reflexivity. Qed.

Lemma Bpp_of_pos (d : depth) : 0 < Bpp_of d.
Proof. destruct d; reflexivity. Qed.

Lemma row_lo_bounds (d : depth) (y : Z) :
  y - (group_of d - 1) <= row_lo d y <= y.
Proof.
  rewrite row_lo_eq. pose proof (group_of_pos d) as G.
  pose proof (Z.div_mod y (group_of d)).
  pose proof (Z.mod_pos_bound y (group_of d) G). lia.
Qed.

Lemma row_hi_bounds (d : depth) (y : Z) :
  y <= row_hi d y <= y + (group_of d - 1).
Proof.
  rewrite row_hi_eq. pose proof (group_of_pos d) as G.
  pose proof (Z.div_mod (y + (group_of d - 1)) (group_of d)).
  pose proof (Z.mod_pos_bound (y + (group_of d - 1)) (group_of d) G). lia.
Qed.

(** The rounds of the inner loop cover the row range exactly. *)
Lemma rounds_eq (d : depth) (b : BoxRec) :
  group_of d * rounds d b = row_hi d (y2 b) - row_lo d (y1 b).
Proof.
  unfold rounds. rewrite row_hi_eq, row_lo_eq.
  pose proof (group_of_pos d) as G.
  set (u := (y2 b + (group_of d - 1)) / group_of d).
  set (l := y1 b / group_of d).
  replace (group_of d * u - group_of d * l) with ((u - l) * group_of d)
    by ring.
  rewrite Z.div_mul by lia. ring.
Qed.

Lemma rounds_nonneg (d : depth) (b : BoxRec) :
  y1 b <= y2 b -> 0 <= rounds d b.
Proof.
  intros H. pose proof (rounds_eq d b). pose proof (group_of_pos d).
  pose proof (row_lo_bounds d (y1 b)). pose proof (row_hi_bounds d (y2 b)).
  nia.
Qed.

(* ================================================================= *)
(** ** The routines emit their closed-form traces *)

Ltac eq_by_ring := repeat first [reflexivity | ring | f_equal].

Lemma while_dec_zero {S} (body : S -> M S) (s : S) (m : machine) :
  while_dec 0 body s m = Some (s, m).
Proof. reflexivity. Qed.

Lemma shiftr_rounds (d : depth) (b : BoxRec) (k : Z) :
  0 <= k -> group_of d = 2 ^ k ->
  Z.shiftr (row_hi d (y2 b) - row_lo d (y1 b)) k = rounds d b.
Proof.
  intros Hk Hg. unfold rounds. rewrite Z.shiftr_div_pow2 by lia.
  now rewrite Hg.
Qed.


Lemma row_lo_32 (y : Z) : row_lo bpp32 y = y.
Proof. rewrite row_lo_eq. cbn [group_of]. rewrite Z.div_1_r. lia. Qed.

Lemma row_hi_32 (y : Z) : row_hi bpp32 y = y.
Proof.
  rewrite row_hi_eq. cbn [group_of]. rewrite Z.div_1_r. lia.
Qed.

Lemma rounds_32 (b : BoxRec) : rounds bpp32 b = y2 b - y1 b.
Proof.
  unfold rounds. rewrite row_lo_32, row_hi_32. cbn [group_of].
  apply Z.div_1_r.
Qed.

Ltac norm_addr R :=
  unfold src_start, dst_start, padd; rewrite ?R, ?row_lo_32, ?row_hi_32;
  cbn [fb_pitch src_pitch Bpp_of group_of].

Ltac inner_body :=
  intros; unfold load, store32, bind, ret; rewrite !emit_emit;
  cbn [app group_events Z.of_nat Pos.of_succ_nat Pos.succ];
  unfold padd; cbn [fb_pitch src_pitch Bpp_of group_of]; eq_by_ring.

Ltac column_body d b pCir :=
  intros;
  erewrite (while_dec_emit
    (fun s t => group_events d (ShadowPtr pCir) (src_pitch d pCir) s t)
    (group_of d * src_pitch d pCir) (group_of d * Bpp_of d));
  [ unfold ret; unfold padd; cbn [fb_pitch src_pitch Bpp_of group_of];
    eq_by_ring
  | inner_body
  | assumption ].

Ltac box_loops BitmapBytePad d b pScrn pCir R :=
  unfold bind;
  erewrite (while_dec_emit
    (fun s t => tab (Z.to_nat (rounds d b)) (fun j =>
       group_events d (ShadowPtr pCir) (src_pitch d pCir)
         (s + group_of d * src_pitch d pCir * j)
         (t + group_of d * Bpp_of d * j)))
    (rotate pCir * Bpp_of d) (fb_pitch BitmapBytePad d pScrn));
  [ unfold ret; do 3 f_equal;
    apply tab_ext; intros i _; apply tab_ext; intros j _;
    norm_addr R; eq_by_ring
  | column_body d b pCir
  | lia ].

Ltac box_closed BitmapBytePad d b pScrn pCir Hx Hy :=
  unfold blit_events;
  destruct (Z.eq_dec (x1 b) (x2 b)) as [E|E];
  [ replace (x2 b - x1 b) with 0 by lia;
    destruct (rotate pCir =? 1); unfold bind; rewrite while_dec_zero;
    unfold ret; now rewrite emit_nil
  | assert (Hr : 0 <= rounds d b) by (apply rounds_nonneg; lia);
    destruct (rotate pCir =? 1) eqn:R;
    box_loops BitmapBytePad d b pScrn pCir R ].

Section Closed.

Variable BitmapBytePad : Z -> Z.

Lemma cirRefreshArea8_closed pScrn pCir boxes m :
  Forall box_runs boxes ->
  cirRefreshArea8 pScrn pCir boxes m =
  Some (tt, emit (flat_map (blit_events BitmapBytePad bpp8 pScrn pCir) boxes) m).
Proof.
  unfold cirRefreshArea8. apply for_boxes_emit. clear m.
  intros b m [Hx Hy].
  change (Z.land (y1 b) (Z.lnot 3)) with (row_lo bpp8 (y1 b)).
  change (Z.land (y2 b + 3) (Z.lnot 3)) with (row_hi bpp8 (y2 b)).
  rewrite (shiftr_rounds bpp8 b 2) by (reflexivity || lia).
  box_closed BitmapBytePad bpp8 b pScrn pCir Hx Hy.
Qed.

Lemma cirRefreshArea16_closed pScrn pCir boxes m :
  Forall box_runs boxes ->
  cirRefreshArea16 pScrn pCir boxes m =
  Some (tt, emit (flat_map (blit_events BitmapBytePad bpp16 pScrn pCir) boxes) m).
Proof.
  unfold cirRefreshArea16. apply for_boxes_emit. clear m.
  intros b m [Hx Hy].
  change (Z.land (y1 b) (Z.lnot 1)) with (row_lo bpp16 (y1 b)).
  change (Z.land (y2 b + 1) (Z.lnot 1)) with (row_hi bpp16 (y2 b)).
  rewrite (shiftr_rounds bpp16 b 1) by (reflexivity || lia).
  box_closed BitmapBytePad bpp16 b pScrn pCir Hx Hy.
Qed.

Lemma cirRefreshArea24_closed pScrn pCir boxes m :
  Forall box_runs boxes ->
  cirRefreshArea24 BitmapBytePad pScrn pCir boxes m =
  Some (tt, emit (flat_map (blit_events BitmapBytePad bpp24 pScrn pCir) boxes) m).
Proof.
  unfold cirRefreshArea24. apply for_boxes_emit. clear m.
  intros b m [Hx Hy].
  change (Z.land (y1 b) (Z.lnot 3)) with (row_lo bpp24 (y1 b)).
  change (Z.land (y2 b + 3) (Z.lnot 3)) with (row_hi bpp24 (y2 b)).
  rewrite (shiftr_rounds bpp24 b 2) by (reflexivity || lia).
  box_closed BitmapBytePad bpp24 b pScrn pCir Hx Hy.
Qed.

Lemma cirRefreshArea32_closed pScrn pCir boxes m :
  Forall box_runs boxes ->
  cirRefreshArea32 pScrn pCir boxes m =
  Some (tt, emit (flat_map (blit_events BitmapBytePad bpp32 pScrn pCir) boxes) m).
Proof.
  unfold cirRefreshArea32. apply for_boxes_emit. clear m.
  intros b m [Hx Hy].
  rewrite <- (rounds_32 b).
  box_closed BitmapBytePad bpp32 b pScrn pCir Hx Hy.
Qed.

Lemma while_dec_count (f : Z -> list event) (body : Z -> M Z) (n : Z) :
  (forall k m, body k m = Some (k + 1, emit (f k) m)) ->
  0 <= n ->
  forall k m,
    while_dec n body k m =
    Some (k + n, emit (tab (Z.to_nat n) (fun i => f (k + i))) m).
Proof.
  intros Hbody Hn k m. unfold while_dec.
  destruct (Z.ltb_spec n 0); [lia|].
  rewrite <- (Z2Nat.id n) at 2 by lia.
  generalize (Z.to_nat n). clear Hn H n. intros n. revert k m.
  induction n as [|n IH]; intros k m.
  - simpl. unfold ret. rewrite emit_nil. do 2 f_equal. lia.
  - cbn [iterate]. unfold bind. rewrite Hbody, IH, emit_emit, tab_S.
    do 2 f_equal; [lia|]. do 2 f_equal.
    + f_equal. lia.
    + apply tab_ext. intros i _. f_equal. lia.
Qed.

Lemma memcpy_closed sh dst src n m :
  0 <= n ->
  memcpy sh dst src n m =
  Some (tt, emit (tab (Z.to_nat n) (fun k =>
                    [Load (src + k) 1;
                     Store (dst + k) 1 (peek sh (src + k) 1)])) m).
Proof.
  intros Hn. unfold memcpy, bind.
  erewrite (while_dec_count (fun k =>
    [Load (src + k) 1; Store (dst + k) 1 (peek sh (src + k) 1)])).
  - unfold ret. do 3 f_equal.
  - intros k m'. unfold load, store8, bind, ret. rewrite emit_emit.
    reflexivity.
  - exact Hn.
Qed.

Lemma cirRefreshArea_closed pScrn pCir boxes m :
  Forall (copy_runs pScrn) boxes ->
  cirRefreshArea BitmapBytePad pScrn pCir boxes m =
  Some (tt, emit (flat_map (copy_events BitmapBytePad pScrn pCir) boxes) m).
Proof.
  unfold cirRefreshArea. apply for_boxes_emit. clear m.
  intros b m [Hy Hx]. unfold copy_events.
  destruct (Z.eq_dec (y1 b) (y2 b)) as [E|E].
  { replace (y2 b - y1 b) with 0 by lia.
    unfold bind. rewrite while_dec_zero. unfold ret. now rewrite emit_nil. }
  unfold bind.
  erewrite (while_dec_emit
    (fun s t => tab (Z.to_nat ((x2 b - x1 b) * Z.shiftr (bitsPerPixel pScrn) 3))
       (fun k => [Load (s + k) 1;
                  Store (t + k) 1 (peek (ShadowPtr pCir) (s + k) 1)]))
    (ShadowPitch pCir)
    (BitmapBytePad (displayWidth pScrn * bitsPerPixel pScrn))).
  - unfold ret. do 3 f_equal. apply tab_ext. intros r _.
    apply tab_ext. intros k _. eq_by_ring.
  - intros s t m'. rewrite memcpy_closed by lia. reflexivity.
  - lia.
Qed.

Lemma refresh_closed e pScrn pCir boxes m :
  Forall (engine_runs e pScrn) boxes ->
  refresh BitmapBytePad e pScrn pCir boxes m =
  Some (tt, emit (flat_map (engine_events BitmapBytePad e pScrn pCir) boxes) m).
Proof.
  destruct e as [|d]; cbn [refresh engine_runs engine_events].
  - apply cirRefreshArea_closed.
  - intros H. unfold rotating_blitter.
    destruct d.
    + now apply cirRefreshArea8_closed.
    + now apply cirRefreshArea16_closed.
    + now apply cirRefreshArea24_closed.
    + now apply cirRefreshArea32_closed.
Qed.

Lemma rotating_blitter_closed d pScrn pCir boxes m :
  Forall box_runs boxes ->
  rotating_blitter BitmapBytePad d pScrn pCir boxes m =
  Some (tt, emit (flat_map (blit_events BitmapBytePad d pScrn pCir) boxes) m).
Proof.
  destruct d; cbn [rotating_blitter].
  - apply cirRefreshArea8_closed.
  - apply cirRefreshArea16_closed.
  - apply cirRefreshArea24_closed.
  - apply cirRefreshArea32_closed.
Qed.

End Closed.

(* ================================================================= *)
(** ** Packed words, byte by byte *)

Lemma shiftl_bit_lo (a s m : Z) :
  m < s -> Z.testbit (Z.shiftl a s) m = false.
Proof. apply Z.shiftl_spec_low. Qed.

Lemma shiftl_bit_hi (a s m : Z) :
  0 <= s <= m -> Z.testbit (Z.shiftl a s) m = Z.testbit a (m - s).
Proof. intros H. apply Z.shiftl_spec. lia. Qed.

Ltac byte_bits :=
  apply byte_of_bits; [lia|];
  let n := fresh "n" in let Hn := fresh "Hn" in
  intros n Hn; unfold wrap32, pack4; cbn [peek];
  rewrite ?Z.shiftl_0_l, ?Z.lor_0_r;
  rewrite Z.mod_pow2_bits_low by lia;
  repeat first [ rewrite Z.lor_spec
               | rewrite shiftl_bit_lo by lia
               | rewrite shiftl_bit_hi by lia ];
  repeat match goal with
         | |- context [Z.testbit (byte_to_Z ?b) ?i] =>
             first [ rewrite (byte_bit_out b i) by lia
                   | progress replace i with n by lia ]
         end;
  rewrite ?orb_false_r, ?orb_false_l; reflexivity.

Lemma pack4_bytes (b0 b1 b2 b3 : byte) :
  let v := wrap32 (pack4 (byte_to_Z b0) (byte_to_Z b1)
                         (byte_to_Z b2) (byte_to_Z b3)) in
  byte_of v 0 = b0 /\ byte_of v 1 = b1 /\
  byte_of v 2 = b2 /\ byte_of v 3 = b3.
Proof.
  cbv zeta. repeat split; byte_bits.
Qed.

Lemma pack2_bytes (sh : mem) (s s' : Z) :
  let v := wrap32 (Z.lor (peek sh s 2) (Z.shiftl (peek sh s' 2) 16)) in
  byte_of v 0 = sh s /\ byte_of v 1 = sh (s + 1) /\
  byte_of v 2 = sh s' /\ byte_of v 3 = sh (s' + 1).
Proof.
  cbv zeta. repeat split; byte_bits.
Qed.

Lemma peek4_bytes (sh : mem) (s : Z) :
  let v := wrap32 (peek sh s 4) in
  byte_of v 0 = sh s /\ byte_of v 1 = sh (s + 1) /\
  byte_of v 2 = sh (s + 1 + 1) /\ byte_of v 3 = sh (s + 1 + 1 + 1).
Proof.
  cbv zeta. repeat split; byte_bits.
Qed.

Lemma peek1 (sh : mem) (s : Z) : peek sh s 1 = byte_to_Z (sh s).
Proof. cbn [peek]. now rewrite Z.shiftl_0_l, Z.lor_0_r. Qed.

Lemma byte_of_byte (b : byte) : byte_of (byte_to_Z b) 0 = b.
Proof.
  unfold byte_of. rewrite Z.shiftr_0_r. apply Z_to_byte_to_Z.
Qed.

(* ================================================================= *)
(** ** Traces and the framebuffer they leave *)

Lemma replay_last_write (es : list event) (fb : mem) (a : Z) :
  replay es fb a =
  match last_write es a with Some v => v | None => fb a end.
Proof.
  revert fb. induction es as [|e es IH]; intros fb; [reflexivity|].
  cbn [replay fold_left last_write]. fold (replay es (apply_event fb e)).
  rewrite IH. destruct (last_write es a); [reflexivity|].
  destruct e as [s w|t w v]; cbn [apply_event covers written];
    [reflexivity|].
  unfold poke. destruct ((t <=? a) && (a <? t + w)); reflexivity.
Qed.

Lemma last_write_app (es1 es2 : list event) (a : Z) :
  last_write (es1 ++ es2) a =
  match last_write es2 a with
  | Some v => Some v
  | None => last_write es1 a
  end.
Proof.
  induction es1 as [|e es1 IH]; cbn [app last_write].
  - destruct (last_write es2 a); reflexivity.
  - rewrite IH. destruct (last_write es2 a); reflexivity.
Qed.

Lemma same_stores_replay (es1 es2 : list event) :
  same_stores es1 es2 ->
  forall fb a, replay es1 fb a = replay es2 fb a.
Proof.
  intros H fb a. now rewrite !replay_last_write, H.
Qed.

Lemma same_stores_refl (es : list event) : same_stores es es.
Proof. intros a. reflexivity. Qed.

Lemma same_stores_sym (es1 es2 : list event) :
  same_stores es1 es2 -> same_stores es2 es1.
Proof. intros H a. symmetry. apply H. Qed.

Lemma same_stores_trans (es1 es2 es3 : list event) :
  same_stores es1 es2 -> same_stores es2 es3 -> same_stores es1 es3.
Proof. intros H1 H2 a. now rewrite H1. Qed.

Lemma same_stores_app (es1 es2 fs1 fs2 : list event) :
  same_stores es1 fs1 -> same_stores es2 fs2 ->
  same_stores (es1 ++ es2) (fs1 ++ fs2).
Proof.
  intros H1 H2 a. now rewrite !last_write_app, H1, H2.
Qed.

Lemma same_stores_flat_map {A} (f g : A -> list event) (l : list A) :
  (forall x, In x l -> same_stores (f x) (g x)) ->
  same_stores (flat_map f l) (flat_map g l).
Proof.
  induction l as [|x l IH]; intros H; cbn [flat_map].
  - apply same_stores_refl.
  - apply same_stores_app.
    + apply H. now left.
    + apply IH. intros y Hy. apply H. now right.
Qed.

Lemma same_stores_tab (n : nat) (f g : Z -> list event) :
  (forall i, 0 <= i < Z.of_nat n -> same_stores (f i) (g i)) ->
  same_stores (tab n f) (tab n g).
Proof.
  intros H. unfold tab. apply same_stores_flat_map.
  intros i Hi. apply in_seq in Hi. apply H. lia.
Qed.

Lemma drop_loads (es : list event) :
  same_stores es (filter is_store es).
Proof.
  intros a. induction es as [|e es IH]; [reflexivity|].
  destruct e as [s w|t w v]; cbn [filter is_store last_write covers].
  - rewrite IH. destruct (last_write (filter is_store es) a); reflexivity.
  - now rewrite IH.
Qed.

(** Refreshing twice from the same trace is refreshing once. *)
Lemma replay_twice (es : list event) (fb : mem) (a : Z) :
  replay (es ++ es) fb a = replay es fb a.
Proof.
  rewrite !replay_last_write, last_write_app.
  destruct (last_write es a); reflexivity.
Qed.

Ltac decide_cmps :=
  repeat match goal with
         | |- context [?x <=? ?y] =>
             first [ rewrite (proj2 (Z.leb_le x y)) by lia
                   | rewrite (proj2 (Z.leb_gt x y)) by lia ]
         | |- context [?x <? ?y] =>
             first [ rewrite (proj2 (Z.ltb_lt x y)) by lia
                   | rewrite (proj2 (Z.ltb_ge x y)) by lia ]
         end;
  cbn [andb].

(** A 32-bit store is four byte stores of its bytes, lowest first. *)
Lemma store4_split (t v : Z) (b0 b1 b2 b3 : byte) :
  byte_of v 0 = b0 -> byte_of v 1 = b1 ->
  byte_of v 2 = b2 -> byte_of v 3 = b3 ->
  same_stores [Store t 4 v]
              [Store t 1 (byte_to_Z b0); Store (t + 1) 1 (byte_to_Z b1);
               Store (t + 2) 1 (byte_to_Z b2);
               Store (t + 3) 1 (byte_to_Z b3)].
Proof.
  intros H0 H1 H2 H3 a. cbn [last_write covers written].
  assert (C : a < t \/ a = t \/ a = t + 1 \/ a = t + 2 \/ a = t + 3
              \/ t + 4 <= a) by lia.
  destruct C as [C|[C|[C|[C|[C|C]]]]]; decide_cmps; try reflexivity;
    f_equal.
  - replace (a - t) with 0 by lia. replace (a - t) with 0 by lia.
    now rewrite H0, byte_of_byte.
  - replace (a - t) with 1 by lia. replace (a - (t + 1)) with 0 by lia.
    now rewrite H1, byte_of_byte.
  - replace (a - t) with 2 by lia. replace (a - (t + 2)) with 0 by lia.
    now rewrite H2, byte_of_byte.
  - replace (a - t) with 3 by lia. replace (a - (t + 3)) with 0 by lia.
    now rewrite H3, byte_of_byte.
Qed.

Ltac eq_by_lia := repeat first [reflexivity | lia | f_equal].

Lemma same_stores_eq (es1 es2 es3 : list event) :
  same_stores es1 es2 -> es2 = es3 -> same_stores es1 es3.
Proof. now intros H <-. Qed.

Lemma store32_pack4 (t : Z) (b0 b1 b2 b3 : byte) :
  same_stores
    [Store t 4 (wrap32 (pack4 (byte_to_Z b0) (byte_to_Z b1)
                              (byte_to_Z b2) (byte_to_Z b3)))]
    [Store t 1 (byte_to_Z b0); Store (t + 1) 1 (byte_to_Z b1);
     Store (t + 2) 1 (byte_to_Z b2); Store (t + 3) 1 (byte_to_Z b3)].
Proof.
  destruct (pack4_bytes b0 b1 b2 b3) as (H0 & H1 & H2 & H3).
  now apply store4_split.
Qed.

Lemma store32_pack2 (sh : mem) (t s s' : Z) :
  same_stores
    [Store t 4 (wrap32 (Z.lor (peek sh s 2) (Z.shiftl (peek sh s' 2) 16)))]
    [Store t 1 (byte_to_Z (sh s)); Store (t + 1) 1 (byte_to_Z (sh (s + 1)));
     Store (t + 2) 1 (byte_to_Z (sh s'));
     Store (t + 3) 1 (byte_to_Z (sh (s' + 1)))].
Proof.
  destruct (pack2_bytes sh s s') as (H0 & H1 & H2 & H3).
  now apply store4_split.
Qed.

Lemma store32_peek4 (sh : mem) (t s : Z) :
  same_stores
    [Store t 4 (wrap32 (peek sh s 4))]
    [Store t 1 (byte_to_Z (sh s)); Store (t + 1) 1 (byte_to_Z (sh (s + 1)));
     Store (t + 2) 1 (byte_to_Z (sh (s + 1 + 1)));
     Store (t + 3) 1 (byte_to_Z (sh (s + 1 + 1 + 1)))].
Proof.
  destruct (peek4_bytes sh s) as (H0 & H1 & H2 & H3).
  now apply store4_split.
Qed.

Lemma group_same (d : depth) (sh : mem) (P s t : Z) :
  same_stores (group_events d sh P s t) (ref_group d sh P s t).
Proof.
  eapply same_stores_trans; [apply drop_loads|].
  eapply same_stores_trans; [|apply same_stores_sym, drop_loads].
  destruct d; unfold ref_group, copy_px, tab;
    cbn [group_events group_of Bpp_of];
    change (Z.to_nat 4) with 4%nat; change (Z.to_nat 3) with 3%nat;
    change (Z.to_nat 2) with 2%nat; change (Z.to_nat 1) with 1%nat;
    cbn [seq flat_map app filter is_store Z.of_nat
         Pos.of_succ_nat Pos.succ];
    rewrite ?peek1.
  - eapply same_stores_eq; [apply store32_pack4|eq_by_lia].
  - eapply same_stores_eq; [apply store32_pack2|eq_by_lia].
  - apply (same_stores_app [_] [_; _] [_; _; _; _]
             (_ :: _ :: _ :: _ :: _ :: _ :: _ :: _ :: nil)).
    { eapply same_stores_eq; [apply store32_pack4|eq_by_lia]. }
    apply (same_stores_app [_] [_] [_; _; _; _] [_; _; _; _]).
    { eapply same_stores_eq; [apply store32_pack4|eq_by_lia]. }
    eapply same_stores_eq; [apply store32_pack4|eq_by_lia].
  - eapply same_stores_eq; [apply store32_peek4|eq_by_lia].
Qed.

(* ================================================================= *)
(** ** The blitters refine the per-pixel reference copy *)

Lemma tab_app {A} (n k : nat) (F : Z -> list A) :
  tab (n + k) F = tab n F ++ tab k (fun i => F (Z.of_nat n + i)).
Proof.
  revert F. induction n as [|n IH]; intros F.
  - cbn [Nat.add]. unfold tab at 2. cbn [seq flat_map app].
    apply tab_ext. intros i _. f_equal; lia.
  - cbn [Nat.add]. rewrite !tab_S, IH, <- app_assoc. do 2 f_equal.
    apply tab_ext. intros i _. f_equal; lia.
Qed.

Lemma tab_tab {A} (n g : nat) (F : Z -> list A) :
  tab n (fun j => tab g (fun r => F (Z.of_nat g * j + r))) = tab (n * g) F.
Proof.
  revert F. induction n as [|n IH]; intros F; [reflexivity|].
  rewrite tab_S. cbn [Nat.mul]. rewrite tab_app. f_equal.
  - apply tab_ext. intros i _. f_equal; lia.
  - rewrite <- IH. apply tab_ext. intros j _. apply tab_ext. intros r _.
    f_equal; lia.
Qed.

Lemma src_pitch_eq (d : depth) (pCir : CirRec) :
  rotate pCir = 1 \/ rotate pCir = -1 ->
  pitch_aligned d (ShadowPitch pCir) ->
  src_pitch d pCir = - rotate pCir * ShadowPitch pCir.
Proof.
  intros Hr Ha. destruct d; cbn [src_pitch pitch_aligned] in *;
    try reflexivity.
  - rewrite Z.shiftr_div_pow2 by lia. change (2 ^ 1) with 2.
    pose proof (Z.div_mod (ShadowPitch pCir) 2).
    pose proof (Z.div_mod (- rotate pCir * ShadowPitch pCir) 2).
    pose proof (Z.mod_pos_bound (- rotate pCir * ShadowPitch pCir) 2).
    destruct Hr as [Hr|Hr]; rewrite Hr in *; lia.
  - rewrite Z.shiftr_div_pow2 by lia. change (2 ^ 2) with 4.
    pose proof (Z.div_mod (ShadowPitch pCir) 4).
    pose proof (Z.div_mod (- rotate pCir * ShadowPitch pCir) 4).
    pose proof (Z.mod_pos_bound (- rotate pCir * ShadowPitch pCir) 4).
    destruct Hr as [Hr|Hr]; rewrite Hr in *; lia.
Qed.

Section Refinement.

Variable BitmapBytePad : Z -> Z.

Lemma blit_same (d : depth) pScrn pCir b :
  rotate pCir = 1 \/ rotate pCir = -1 ->
  pitch_aligned d (ShadowPitch pCir) ->
  y1 b <= y2 b ->
  same_stores (blit_events BitmapBytePad d pScrn pCir b)
              (ref_blit BitmapBytePad d pScrn pCir b).
Proof.
  intros Hr Ha Hy. unfold blit_events, ref_blit.
  apply same_stores_tab. intros i Hi.
  eapply same_stores_trans.
  { apply same_stores_tab. intros j Hj. apply group_same. }
  unfold ref_group.
  pose proof (rounds_eq d b) as RE. pose proof (rounds_nonneg d b Hy) as RN.
  pose proof (group_of_pos d) as GP.
  replace (Z.to_nat (row_hi d (y2 b) - row_lo d (y1 b)))
    with (Z.to_nat (rounds d b) * Z.to_nat (group_of d))%nat by nia.
  rewrite <- tab_tab. rewrite Z2Nat.id by lia.
  rewrite (src_pitch_eq d pCir Hr Ha).
  apply same_stores_eq with (1 := same_stores_refl _).
  apply tab_ext. intros j Hj. apply tab_ext. intros r Hr'.
  unfold src_start, dst_start, dst_px, fb_px, rot_px, src_px.
  rewrite (src_pitch_eq d pCir Hr Ha).
  destruct Hr as [Hr|Hr]; rewrite Hr; cbn [Z.eqb Pos.eqb fst snd];
    f_equal; ring.
Qed.

End Refinement.

(* ================================================================= *)
(** ** What the reference copy leaves in the framebuffer *)

Lemma last_write_some_in (es : list event) (a : Z) (v : byte) :
  last_write es a = Some v -> exists e, In e es /\ covers e a = true.
Proof.
  revert v. induction es as [|e es IH]; intros v; [discriminate|].
  cbn [last_write]. destruct (last_write es a) as [v'|].
  - intros _. destruct (IH v' eq_refl) as (e' & H1 & H2).
    exists e'. split; [now right | exact H2].
  - destruct (covers e a) eqn:C; [|discriminate]. intros _.
    exists e. split; [now left | exact C].
Qed.

Lemma last_write_none_in (es : list event) (a : Z) :
  last_write es a = None -> forall e, In e es -> covers e a = false.
Proof.
  induction es as [|e es IH]; intros H e' He'; [destruct He'|].
  cbn [last_write] in H. destruct (last_write es a) as [v'|];
    [discriminate|].
  destruct (covers e a) eqn:C; [discriminate|].
  destruct He' as [<-|He']; [exact C | now apply IH].
Qed.

Lemma last_write_agree (es : list event) (a : Z) (v : byte) :
  (forall e, In e es -> covers e a = true -> written e a = v) ->
  (exists e, In e es /\ covers e a = true) ->
  last_write es a = Some v.
Proof.
  induction es as [|e es IH]; intros Hall (e0 & Hin & Hc).
  - destruct Hin.
  - cbn [last_write]. destruct (last_write es a) as [v'|] eqn:E.
    + apply IH.
      * intros e' He'. apply Hall. now right.
      * exact (last_write_some_in es a v' E).
    + destruct Hin as [<-|Hin].
      * rewrite Hc. f_equal. apply Hall; [now left | exact Hc].
      * rewrite (last_write_none_in es a E e0 Hin) in Hc. discriminate.
Qed.

Lemma last_write_none (es : list event) (a : Z) :
  (forall e, In e es -> covers e a = false) -> last_write es a = None.
Proof.
  induction es as [|e es IH]; intros H; [reflexivity|].
  cbn [last_write]. rewrite IH by (intros e' He'; apply H; now right).
  rewrite (H e) by now left. reflexivity.
Qed.

Lemma in_copy_px (sh : mem) (B s t : Z) (e : event) :
  In e (copy_px sh B s t) <->
  exists c, 0 <= c < B /\
    (e = Load (s + c) 1 \/ e = Store (t + c) 1 (byte_to_Z (sh (s + c)))).
Proof.
  unfold copy_px. rewrite in_tab. split.
  - intros (c & Hc & [E|[E|[]]]); exists c; split; try lia; auto.
  - intros (c & Hc & E). exists c. split; [lia|].
    destruct E as [E|E]; subst e; [now left | now right; left].
Qed.

Lemma quot_rem_unique (D q r q' r' : Z) :
  0 <= r < D -> 0 <= r' < D -> q * D + r = q' * D + r' ->
  q = q' /\ r = r'.
Proof. intros H1 H2 E. assert (q = q') by nia. subst. lia. Qed.

Section Content.

Variable BitmapBytePad : Z -> Z.

Lemma in_ref_blit (d : depth) pScrn pCir b (e : event) :
  In e (ref_blit BitmapBytePad d pScrn pCir b) <->
  exists x y c,
    x1 b <= x < x2 b /\ row_lo d (y1 b) <= y < row_hi d (y2 b) /\
    0 <= c < Bpp_of d /\
    (e = Load (src_px d pCir x y + c) 1 \/
     e = Store (dst_px BitmapBytePad d pScrn pCir x y + c) 1
               (byte_to_Z (ShadowPtr pCir (src_px d pCir x y + c)))).
Proof.
  unfold ref_blit. rewrite in_tab. split.
  - intros (i & Hi & H). apply in_tab in H as (q & Hq & H).
    apply in_copy_px in H as (c & Hc & H).
    eexists _, _, c. split; [|split; [|split; [exact Hc | exact H]]].
    + destruct (rotate pCir =? 1); lia.
    + destruct (rotate pCir =? 1); lia.
  - intros (x & y & c & Hx & Hy & Hc & H).
    exists (if rotate pCir =? 1 then x - x1 b else x2 b - 1 - x).
    split; [destruct (rotate pCir =? 1); lia|].
    apply in_tab.
    exists (if rotate pCir =? 1
            then row_hi d (y2 b) - 1 - y else y - row_lo d (y1 b)).
    split; [destruct (rotate pCir =? 1); lia|].
    apply in_copy_px. exists c. split; [exact Hc|].
    destruct (rotate pCir =? 1);
      [ replace (x1 b + (x - x1 b)) with x by lia;
        replace (row_hi d (y2 b) - 1 - (row_hi d (y2 b) - 1 - y))
          with y by lia
      | replace (x2 b - 1 - (x2 b - 1 - x)) with x by lia;
        replace (row_lo d (y1 b) + (y - row_lo d (y1 b))) with y by lia ];
      exact H.
Qed.

Lemma dst_px_inj (d : depth) pScrn pCir (x y c x' y' c' : Z) :
  virtualX pScrn * Bpp_of d <= fb_pitch BitmapBytePad d pScrn ->
  0 <= y < virtualX pScrn -> 0 <= y' < virtualX pScrn ->
  0 <= c < Bpp_of d -> 0 <= c' < Bpp_of d ->
  dst_px BitmapBytePad d pScrn pCir x y + c =
  dst_px BitmapBytePad d pScrn pCir x' y' + c' ->
  x = x' /\ y = y' /\ c = c'.
Proof.
  intros HP Hy Hy' Hc Hc'. unfold dst_px, fb_px, rot_px.
  set (DP := fb_pitch BitmapBytePad d pScrn) in *.
  set (B := Bpp_of d) in *.
  destruct (rotate pCir =? 1); cbn [fst snd]; intros E.
  - destruct (quot_rem_unique DP x ((virtualX pScrn - 1 - y) * B + c)
                x' ((virtualX pScrn - 1 - y') * B + c')) as [E1 E2];
      [nia | nia | lia |].
    destruct (quot_rem_unique B (virtualX pScrn - 1 - y) c
                (virtualX pScrn - 1 - y') c') as [E3 E4]; [lia|lia|lia|].
    lia.
  - destruct (quot_rem_unique DP (virtualY pScrn - 1 - x) (y * B + c)
                (virtualY pScrn - 1 - x') (y' * B + c')) as [E1 E2];
      [nia | nia | lia |].
    destruct (quot_rem_unique B y c y' c') as [E3 E4]; [lia|lia|lia|].
    lia.
Qed.

(** After the reference copy every pixel of the box (rows group-aligned)
    is found at its rotated place. *)
Lemma ref_blit_content (d : depth) pScrn pCir b (x y c : Z) :
  blit_fits BitmapBytePad d pScrn b ->
  x1 b <= x < x2 b -> row_lo d (y1 b) <= y < row_hi d (y2 b) ->
  0 <= c < Bpp_of d ->
  last_write (ref_blit BitmapBytePad d pScrn pCir b)
             (dst_px BitmapBytePad d pScrn pCir x y + c)
  = Some (ShadowPtr pCir (src_px d pCir x y + c)).
Proof.
  intros (F1 & F2 & F3 & F4 & F5) Hx Hy Hc.
  pose proof (row_lo_eq d (y1 b)) as L.
  pose proof (group_of_pos d) as G.
  assert (L0 : 0 <= row_lo d (y1 b)).
  { rewrite L. apply Z.mul_nonneg_nonneg; [lia|].
    apply Z.div_pos; lia. }
  apply last_write_agree.
  - intros e He Hcov. apply in_ref_blit in He
      as (x' & y' & c' & Hx' & Hy' & Hc' & [E|E]); subst e;
      [discriminate|].
    cbn [covers written] in *. apply andb_prop in Hcov as [C1 C2].
    apply Z.leb_le in C1. apply Z.ltb_lt in C2.
    destruct (dst_px_inj d pScrn pCir x y c x' y' c') as (-> & -> & ->);
      try lia.
    rewrite Z.sub_diag. apply byte_of_byte.
  - eexists. split.
    + apply in_ref_blit. exists x, y, c. repeat split; try lia.
      right. reflexivity.
    + cbn [covers]. apply andb_true_intro. split;
        [apply Z.leb_le | apply Z.ltb_lt]; lia.
Qed.

End Content.

(* ================================================================= *)
(** ** What a blit leaves in the framebuffer *)

Section Blit.

Variable BitmapBytePad : Z -> Z.

Lemma blit_content (d : depth) pScrn pCir b m :
  rotate pCir = 1 \/ rotate pCir = -1 ->
  pitch_aligned d (ShadowPitch pCir) ->
  x1 b <= x2 b -> y1 b <= y2 b ->
  blit_fits BitmapBytePad d pScrn b ->
  exists m',
    rotating_blitter BitmapBytePad d pScrn pCir [b] m = Some (tt, m') /\
    forall x y c,
      x1 b <= x < x2 b -> row_lo d (y1 b) <= y < row_hi d (y2 b) ->
      0 <= c < Bpp_of d ->
      FbBase m' (dst_px BitmapBytePad d pScrn pCir x y + c)
      = ShadowPtr pCir (src_px d pCir x y + c).
Proof.
  intros Hr Ha Hx Hy Hf. eexists. split.
  - apply rotating_blitter_closed. constructor; [|constructor].
    split; [exact Hx | intros _; exact Hy].
  - intros x y c Hx' Hy' Hc. cbn [emit FbBase flat_map].
    rewrite app_nil_r.
    rewrite (same_stores_replay _ _ (blit_same BitmapBytePad d pScrn pCir b
                                       Hr Ha Hy)).
    rewrite replay_last_write.
    now rewrite (ref_blit_content BitmapBytePad d pScrn pCir b x y c).
Qed.

End Blit.

(* ================================================================= *)
(** ** Rotation round trip *)

Lemma row_lo_0 (d : depth) : row_lo d 0 = 0.
Proof.
  rewrite row_lo_eq. pose proof (group_of_pos d).
  rewrite Z.div_0_l; lia.
Qed.

Lemma row_hi_aligned (d : depth) (y : Z) :
  y mod group_of d = 0 -> row_hi d y = y.
Proof.
  intros H. pose proof (row_hi_bounds d y) as B. rewrite row_hi_eq in *.
  pose proof (group_of_pos d) as G.
  pose proof (Z.div_mod y (group_of d)). 
  set (q := (y + (group_of d - 1)) / group_of d) in *.
  assert (q = y / group_of d) by nia. lia.
Qed.

Section RoundTripProofs.

Variable BitmapBytePad : Z -> Z.

(** Claim C1, as amended: for each bit depth, when the width and the
    height of the buffer are multiples of the packing group size (and the
    shadow pitch is a whole number of the elements the blitter addresses),
    the Rotate90 blit of the fully dirty buffer followed by the Rotate270
    blit of its result gives back every byte of every pixel. *)
Theorem rot90_then_270_lossless (d : depth) (sh : mem)
    (pitch w h dw1 dw2 : Z) (fb1 fb2 : mem) :
  0 <= w -> 0 <= h ->
  w mod group_of d = 0 -> h mod group_of d = 0 ->
  pitch_aligned d pitch ->
  h * Bpp_of d <= fb_pitch BitmapBytePad d (screen d dw1 h w) ->
  w * Bpp_of d <= fb_pitch BitmapBytePad d (screen d dw2 w h) ->
  round_trip_lossless BitmapBytePad d sh pitch w h dw1 dw2 fb1 fb2.
Proof.
  intros Hw Hh Aw Ah Ap P1 P2. unfold round_trip_lossless, rot90_then_270.
  set (pScrn1 := screen d dw1 h w).
  set (pCir1 := {| ShadowPtr := sh; ShadowPitch := pitch; rotate := 1 |}).
  destruct (blit_content BitmapBytePad d pScrn1 pCir1 (full_box w h)
              {| FbBase := fb1; trace := [] |}) as (m1 & E1 & C1).
  { now left. }
  { exact Ap. }
  { exact Hw. }
  { exact Hh. }
  { unfold blit_fits. cbn [full_box x1 x2 y1 y2 pScrn1 screen virtualX
                            virtualY].
    rewrite (row_hi_aligned d h Ah). repeat split; try lia. exact P1. }
  rewrite E1.
  set (pScrn2 := screen d dw2 w h).
  set (pCir2 := {| ShadowPtr := FbBase m1;
                   ShadowPitch := fb_pitch BitmapBytePad d pScrn1;
                   rotate := -1 |}).
  destruct (blit_content BitmapBytePad d pScrn2 pCir2 (full_box h w)
              {| FbBase := fb2; trace := [] |}) as (m2 & E2 & C2).
  { now right. }
  { destruct d; cbn [pitch_aligned pCir2 ShadowPitch fb_pitch]; trivial.
    - rewrite Z.mul_comm. apply Z.mod_mul. lia.
    - rewrite Z.mul_comm. apply Z.mod_mul. lia. }
  { exact Hh. }
  { exact Hw. }
  { unfold blit_fits. cbn [full_box x1 x2 y1 y2 pScrn2 screen virtualX
                            virtualY].
    rewrite (row_hi_aligned d w Aw). repeat split; try lia. exact P2. }
  rewrite E2. exists (FbBase m2). split; [reflexivity|].
  intros x y c Hx Hy Hc.
  cbn [full_box x1 x2 y1 y2] in C1, C2.
  rewrite row_lo_0 in C1, C2.
  rewrite (row_hi_aligned d h Ah) in C1.
  rewrite (row_hi_aligned d w Aw) in C2.
  specialize (C2 (h - 1 - y) x c ltac:(lia) ltac:(lia) Hc).
  specialize (C1 x y c ltac:(lia) ltac:(lia) Hc).
  unfold dst_px, rot_px, src_px in C1, C2.
  cbn [pCir1 pCir2 rotate ShadowPtr ShadowPitch Z.eqb Pos.eqb fst snd
       pScrn1 pScrn2 screen virtualX virtualY] in C1, C2.
  fold pScrn1 in C1, C2. fold pScrn2 in C2.
  replace (h - 1 - (h - 1 - y)) with y in C2 by lia.
  rewrite C2. rewrite <- C1. unfold fb_px. f_equal; ring.
Qed.

End RoundTripProofs.

Lemma rot90_then_270_lossless_witness :
  round_trip_lossless pad32 bpp8 ramp 4 4 4 4 4 blank blank.
Proof.
  apply (rot90_then_270_lossless pad32 bpp8 ramp 4 4 4 4 4 blank blank);
    cbn; try reflexivity; lia.
Defined.

(** Claim C1, as stated, fails: a fully dirty, in-bounds 4 x 5 buffer at
    24 bpp, whose height is not a multiple of the packing group, does not
    come back from the round trip. The overscan rows of each column are
    stored over the last pixels of the framebuffer row before it. *)
Lemma rot90_then_270_lossy :
  ~ round_trip_lossless pad32 bpp24 ramp 12 4 5 5 4 blank blank.
Proof.
  intros (out & E & H).
  specialize (H 0 0 0 ltac:(lia) ltac:(lia) ltac:(cbn; lia)).
  assert (P : probe (rot90_then_270 pad32 bpp24 ramp 12 4 5 5 4 blank blank)
                (fb_px pad32 bpp24 (screen bpp24 4 4 5) 0 0 + 0)
              = Some (byte_to_Z (out (fb_px pad32 bpp24
                                        (screen bpp24 4 4 5) 0 0 + 0)))).
  { rewrite E. reflexivity. }
  rewrite H in P. vm_compute in P. discriminate P.
Qed.

(* ================================================================= *)
(** ** The pointer transform *)

Lemma wrap_int_id (z : Z) : in_int z -> wrap_int z = z.
Proof.
  unfold in_int, int_min, int_max, wrap_int. intros H.
  rewrite Z.mod_small; lia.
Qed.

Lemma wrap_int_sub (a b : Z) : wrap_int (wrap_int a - b) = wrap_int (a - b).
Proof.
  unfold wrap_int. f_equal.
  replace ((a + 2 ^ 31) mod 2 ^ 32 - 2 ^ 31 - b + 2 ^ 31)
    with ((a + 2 ^ 31) mod 2 ^ 32 - b) by ring.
  replace (a - b + 2 ^ 31) with (a + 2 ^ 31 - b) by ring.
  apply Zminus_mod_idemp_l.
Qed.

Lemma wrap_int_range (z : Z) : in_int (wrap_int z).
Proof.
  unfold in_int, int_min, int_max, wrap_int.
  pose proof (Z.mod_pos_bound (z + 2 ^ 31) (2 ^ 32) ltac:(lia)). lia.
Qed.

(** Where nothing overflows the two versions of the transform agree. *)
Lemma cirPointerMoved_int_agrees {R} pScrn pCir (handler : Z -> Z -> R)
    (x y : Z) :
  no_overflow pScrn pCir x y ->
  cirPointerMoved_int pScrn pCir handler x y =
  cirPointerMoved pScrn pCir handler x y.
Proof.
  unfold no_overflow, cirPointerMoved_int, cirPointerMoved, int_sub.
  destruct (rotate pCir =? 1); intros [H1 H2];
    now rewrite (wrap_int_id _ H1), (wrap_int_id _ H2).
Qed.

(** A position on a screen whose dimensions are [int]s overflows
    nothing. *)
Lemma on_screen_no_overflow pScrn pCir (x y : Z) :
  in_int (width (pScreen pScrn)) -> in_int (height (pScreen pScrn)) ->
  0 <= x < width (pScreen pScrn) -> 0 <= y < height (pScreen pScrn) ->
  no_overflow pScrn pCir x y.
Proof.
  unfold no_overflow, in_int, int_min, int_max. intros W H Hx Hy.
  destruct (rotate pCir =? 1); lia.
Qed.

(** Claim C4, as amended: for every input the transform hands the
    downstream handler, once, [(height - y - 1, x)] when the mode is
    Rotate90 ([rotate = 1]) and [(y, width - x - 1)] otherwise, the
    subtractions being those of [int]: the values are the [int]s that are
    [height - y - 1] and [width - x - 1] modulo [2^32].  They are exactly
    [height - y - 1] and [width - x - 1] whenever the subtractions do not
    overflow, as for every position on the screen; on an 800 x 600 screen
    the point (10, 5) goes to (594, 10) in the first branch and to
    (5, 789) in the other. *)
Theorem cirPointerMoved_int_computes :
  (forall (R : Type) (handler : Z -> Z -> R) pScrn pCir x y,
      cirPointerMoved_int pScrn pCir handler x y =
      if rotate pCir =? 1
      then handler (wrap_int (height (pScreen pScrn) - y - 1)) x
      else handler y (wrap_int (width (pScreen pScrn) - x - 1))) /\
  (forall (R : Type) (handler : Z -> Z -> R) pScrn pCir x y,
      no_overflow pScrn pCir x y ->
      cirPointerMoved_int pScrn pCir handler x y =
      handler (fst (pointer_formula pScrn pCir x y))
              (snd (pointer_formula pScrn pCir x y))) /\
  (forall pScrn pCir x y,
      in_int (width (pScreen pScrn)) -> in_int (height (pScreen pScrn)) ->
      0 <= x < width (pScreen pScrn) -> 0 <= y < height (pScreen pScrn) ->
      no_overflow pScrn pCir x y) /\
  (forall sh pitch,
      cirPointerMoved_int (screen bpp8 800 800 600)
        {| ShadowPtr := sh; ShadowPitch := pitch; rotate := 1 |}
        pair 10 5 = (594, 10)) /\
  (forall sh pitch r, r <> 1 ->
      cirPointerMoved_int (screen bpp8 800 800 600)
        {| ShadowPtr := sh; ShadowPitch := pitch; rotate := r |}
        pair 10 5 = (5, 789)).
Proof.
  split; [|split; [|split; [|split]]].
  - intros R handler pScrn pCir x y. unfold cirPointerMoved_int, int_sub.
    destruct (rotate pCir =? 1); now rewrite wrap_int_sub.
  - intros R handler pScrn pCir x y H.
    rewrite (cirPointerMoved_int_agrees pScrn pCir handler x y H).
    unfold cirPointerMoved, pointer_formula.
    destruct (rotate pCir =? 1); reflexivity.
  - exact on_screen_no_overflow.
  - reflexivity.
  - intros sh pitch r Hr. unfold cirPointerMoved_int. cbn [rotate].
    destruct (Z.eqb_spec r 1); [contradiction | reflexivity].
Qed.

Lemma cirPointerMoved_int_computes_witness :
  cirPointerMoved_int (screen bpp8 800 800 600)
    {| ShadowPtr := blank; ShadowPitch := 800; rotate := -1 |}
    pair 10 5 = (5, 789).
Proof.
  apply (proj1 (proj2 cirPointerMoved_int_computes) (Z * Z)%type pair
           (screen bpp8 800 800 600)
           {| ShadowPtr := blank; ShadowPitch := 800; rotate := -1 |} 10 5).
  unfold no_overflow, in_int, int_min, int_max. cbn. lia.
Defined.

(** Claim C4, as stated, fails at the end of the range of [int]: on an
    800 x 600 screen, in the branch taken when the mode is not Rotate90,
    the coordinate x = -2147483648 gives newY = -2147482849, not
    800 - x - 1 = 2147484447, which is no [int]. *)
Lemma cirPointerMoved_int_wraps :
  in_int (-2147483648) /\ in_int 5 /\
  cirPointerMoved_int (screen bpp8 800 800 600)
    {| ShadowPtr := blank; ShadowPitch := 800; rotate := -1 |}
    pair (-2147483648) 5 = (5, -2147482849) /\
  cirPointerMoved_int (screen bpp8 800 800 600)
    {| ShadowPtr := blank; ShadowPitch := 800; rotate := -1 |}
    pair (-2147483648) 5
  <> pointer_formula (screen bpp8 800 800 600)
       {| ShadowPtr := blank; ShadowPitch := 800; rotate := -1 |}
       (-2147483648) 5.
Proof.
  split; [|split; [|split]].
  - unfold in_int, int_min, int_max. lia.
  - unfold in_int, int_min, int_max. lia.
  - vm_compute. reflexivity.
  - vm_compute. discriminate.
Qed.

(** Claim C10: a pointer position inside the screen is sent to a position
    inside the transposed screen, in both branches. *)
Theorem cirPointerMoved_in_range pScrn pCir (x y : Z) :
  0 <= x < width (pScreen pScrn) ->
  0 <= y < height (pScreen pScrn) ->
  let '(newX, newY) := cirPointerMoved pScrn pCir pair x y in
  0 <= newX < height (pScreen pScrn) /\
  0 <= newY < width (pScreen pScrn).
Proof.
  intros Hx Hy. unfold cirPointerMoved.
  destruct (rotate pCir =? 1); lia.
Qed.

Lemma cirPointerMoved_in_range_witness :
  let '(newX, newY) :=
    cirPointerMoved (screen bpp8 800 800 600)
      {| ShadowPtr := blank; ShadowPitch := 800; rotate := 1 |}
      pair 10 5 in
  0 <= newX < 600 /\ 0 <= newY < 800.
Proof.
  apply (cirPointerMoved_in_range (screen bpp8 800 800 600)
           {| ShadowPtr := blank; ShadowPitch := 800; rotate := 1 |} 10 5);
    cbn; lia.
Defined.

(* ================================================================= *)
(** ** Order of the boxes, empty refreshes and repeated boxes *)

Lemma tab_nil {A} (n : nat) : tab n (fun _ => @nil A) = [].
Proof.
  unfold tab. induction (seq 0 n) as [|i l IH]; [reflexivity | exact IH].
Qed.

Lemma flat_map_nil {A B} (f : A -> list B) (l : list A) :
  (forall x, In x l -> f x = []) -> flat_map f l = [].
Proof.
  induction l as [|x l IH]; intros H; [reflexivity|].
  cbn [flat_map]. rewrite (H x) by now left.
  apply IH. intros y Hy. apply H. now right.
Qed.

Section Boxes.

Variable BitmapBytePad : Z -> Z.

Lemma for_boxes_app {B} (f : B -> M unit) (l1 l2 : list B) (m : machine) :
  for_boxes f (l1 ++ l2) m =
  match for_boxes f l1 m with
  | Some (_, m1) => for_boxes f l2 m1
  | None => None
  end.
Proof.
  revert m. induction l1 as [|b l1 IH]; intros m; [reflexivity|].
  cbn [app for_boxes]. unfold bind. destruct (f b m) as [[u m1]|];
    [apply IH | reflexivity].
Qed.

Lemma refresh_app e pScrn pCir (l1 l2 : list BoxRec) (m : machine) :
  refresh BitmapBytePad e pScrn pCir (l1 ++ l2) m =
  match refresh BitmapBytePad e pScrn pCir l1 m with
  | Some (_, m1) => refresh BitmapBytePad e pScrn pCir l2 m1
  | None => None
  end.
Proof.
  destruct e as [|[]]; apply for_boxes_app.
Qed.

(** Claim C9: a refresh with no boxes, or with boxes of zero width only,
    returns the machine it was given: no byte of the framebuffer changes
    and no access is made.  For the rotating blitters the rows of such a
    box are not even looked at. *)
Theorem refresh_nothing e pScrn pCir (boxes : list BoxRec) (m : machine) :
  Forall (fun b => x1 b = x2 b /\
                   (e = RectangleCopier -> y1 b <= y2 b)) boxes ->
  refresh BitmapBytePad e pScrn pCir boxes m = Some (tt, m).
Proof.
  intros H. rewrite refresh_closed.
  - rewrite flat_map_nil; [now rewrite emit_nil|].
    intros b Hb. rewrite Forall_forall in H. destruct (H b Hb) as [Hx Hy].
    destruct e as [|d]; cbn [engine_events].
    + unfold copy_events. rewrite Hx, Z.sub_diag, Z.mul_0_l.
      apply tab_nil.
    + unfold blit_events. now rewrite Hx, Z.sub_diag.
  - eapply Forall_impl; [|exact H]. intros b [Hx Hy].
    destruct e as [|d]; cbn [engine_runs].
    + split; [now apply Hy|]. intros _. rewrite Hx, Z.sub_diag. lia.
    + split; lia.
Qed.


(** Claim C8: every refresh routine takes the boxes in the order they are
    supplied, one after the other: refreshing a list is refreshing its
    head and then its tail, and the accesses made for a box depend on that
    box alone.  Refreshing a box twice leaves the framebuffer exactly as
    refreshing it once does. *)
Theorem refresh_in_order_idempotent e pScrn pCir :
  (forall l1 l2 m,
      refresh BitmapBytePad e pScrn pCir (l1 ++ l2) m =
      match refresh BitmapBytePad e pScrn pCir l1 m with
      | Some (_, m1) => refresh BitmapBytePad e pScrn pCir l2 m1
      | None => None
      end) /\
  (forall boxes m, Forall (engine_runs e pScrn) boxes ->
      exists m',
        refresh BitmapBytePad e pScrn pCir boxes m = Some (tt, m') /\
        trace m' =
        trace m ++ flat_map (engine_events BitmapBytePad e pScrn pCir) boxes)
  /\
  (forall b m, engine_runs e pScrn b ->
      exists m1 m2,
        refresh BitmapBytePad e pScrn pCir [b] m = Some (tt, m1) /\
        refresh BitmapBytePad e pScrn pCir [b; b] m = Some (tt, m2) /\
        forall a, FbBase m2 a = FbBase m1 a).
Proof.
  split; [|split].
  - apply refresh_app.
  - intros boxes m H. eexists. split; [now apply refresh_closed|].
    reflexivity.
  - intros b m H. do 2 eexists. split; [|split].
    + apply refresh_closed. now repeat constructor.
    + apply refresh_closed. now repeat constructor.
    + intros a. cbn [emit FbBase flat_map]. rewrite app_nil_r.
      apply replay_twice.
Qed.


End Boxes.

Lemma refresh_nothing_witness :
  refresh pad32 (RotatingBlitter bpp8) (screen bpp8 8 8 4)
    {| ShadowPtr := ramp; ShadowPitch := 4; rotate := 1 |}
    [ {| x1 := 2; y1 := 1; x2 := 2; y2 := 7 |} ]
    {| FbBase := blank; trace := [] |}
  = Some (tt, {| FbBase := blank; trace := [] |}).
Proof.
  apply (refresh_nothing pad32 (RotatingBlitter bpp8) (screen bpp8 8 8 4)
           {| ShadowPtr := ramp; ShadowPitch := 4; rotate := 1 |}
           [ {| x1 := 2; y1 := 1; x2 := 2; y2 := 7 |} ]).
  constructor; [|constructor]. split; [reflexivity | discriminate].
Defined.

Lemma refresh_in_order_idempotent_witness :
  exists m1 m2,
    refresh pad32 (RotatingBlitter bpp8) (screen bpp8 8 8 4)
      {| ShadowPtr := ramp; ShadowPitch := 4; rotate := 1 |}
      [full_box 4 8] {| FbBase := blank; trace := [] |} = Some (tt, m1) /\
    refresh pad32 (RotatingBlitter bpp8) (screen bpp8 8 8 4)
      {| ShadowPtr := ramp; ShadowPitch := 4; rotate := 1 |}
      [full_box 4 8; full_box 4 8] {| FbBase := blank; trace := [] |}
    = Some (tt, m2) /\
    forall a, FbBase m2 a = FbBase m1 a.
Proof.
  apply (proj2 (proj2 (refresh_in_order_idempotent
                         pad32 (RotatingBlitter bpp8) (screen bpp8 8 8 4)
                         {| ShadowPtr := ramp; ShadowPitch := 4;
                            rotate := 1 |}))
           (full_box 4 8) {| FbBase := blank; trace := [] |}).
  cbn. unfold box_runs. cbn. lia.
Defined.

(* ================================================================= *)
(** ** Stores stay within the framebuffer *)

Lemma in_bytes_written (es : list event) (a : Z) :
  In a (bytes_written es) <->
  exists t w v, In (Store t w v) es /\ t <= a < t + w.
Proof.
  unfold bytes_written. rewrite in_flat_map. split.
  - intros (e & He & Ha). destruct e as [s w|t w v]; [destruct Ha|].
    apply in_map_iff in Ha as (k & <- & Hk). apply in_seq in Hk.
    exists t, w, v. split; [exact He | lia].
  - intros (t & w & v & He & Ha). exists (Store t w v). split; [exact He|].
    apply in_map_iff. exists (Z.to_nat (a - t)). split; [lia|].
    apply in_seq. lia.
Qed.

Lemma group_stores (d : depth) (sh : mem) (P s t t' w v : Z) :
  In (Store t' w v) (group_events d sh P s t) ->
  t <= t' /\ t' + w <= t + group_of d * Bpp_of d.
Proof.
  destruct d; cbn [group_events group_of Bpp_of In]; intros H;
    repeat match goal with
           | H : _ \/ _ |- _ => destruct H as [H|H]
           | H : False |- _ => destruct H
           | H : Load _ _ = Store _ _ _ |- _ => discriminate H
           | H : Store _ _ _ = Store _ _ _ |- _ =>
               injection H as <- <- <-
           end; lia.
Qed.

Lemma in_fb_intro (pitch wbytes rows r u : Z) :
  0 <= r < rows -> 0 <= u < wbytes -> wbytes <= pitch ->
  in_fb pitch wbytes rows (r * pitch + u) = true.
Proof.
  intros Hr Hu Hp. unfold in_fb.
  assert (Q : (r * pitch + u) / pitch = r).
  { symmetry. apply (Z.div_unique _ _ r u); [left; lia | ring]. }
  assert (R : (r * pitch + u) mod pitch = u).
  { symmetry. apply (Z.mod_unique _ _ r u); [left; lia | ring]. }
  rewrite Q, R. apply andb_true_intro. split;
    [apply andb_true_intro; split|].
  - apply Z.leb_le. lia.
  - apply Z.ltb_lt. lia.
  - apply Z.ltb_lt. lia.
Qed.

Section Safety.

Variable BitmapBytePad : Z -> Z.

Lemma blit_stores_within (d : depth) pScrn pCir b (a : Z) :
  box_in_shadow BitmapBytePad (RotatingBlitter d) pScrn b ->
  row_hi d (y2 b) <= virtualX pScrn ->
  In a (bytes_written (blit_events BitmapBytePad d pScrn pCir b)) ->
  fb_extent BitmapBytePad (RotatingBlitter d) pScrn a = true.
Proof.
  intros (Hx & Hx2 & Hy & Hy2 & Hp) Hhi Ha.
  apply in_bytes_written in Ha as (t' & w & v & He & Ha).
  unfold blit_events in He. apply in_tab in He as (i & Hi & He).
  apply in_tab in He as (j & Hj & He).
  apply group_stores in He.
  pose proof (rounds_eq d b) as RE.
  pose proof (group_of_pos d) as G. pose proof (Bpp_of_pos d) as BP.
  pose proof (row_lo_bounds d (y1 b)) as LB.
  assert (L0 : 0 <= row_lo d (y1 b)).
  { rewrite row_lo_eq. apply Z.mul_nonneg_nonneg; [lia|].
    apply Z.div_pos; lia. }
  assert (RN : 0 <= rounds d b) by (apply rounds_nonneg; lia).
  rewrite Z2Nat.id in Hi, Hj by lia.
  cbn [fb_extent]. unfold dst_start in He.
  set (DP := fb_pitch BitmapBytePad d pScrn) in *.
  set (B := Bpp_of d) in *. set (g := group_of d) in *.
  set (Y1 := row_lo d (y1 b)) in *. set (Y2 := row_hi d (y2 b)) in *.
  assert (J : g * j + g <= Y2 - Y1) by nia.
  destruct (rotate pCir =? 1).
  - replace a with ((x1 b + i) * DP
                    + ((virtualX pScrn - Y2 + g * j) * B
                       + (a - (x1 b * DP + (virtualX pScrn - Y2) * B
                               + DP * i + g * B * j)))) by ring.
    apply in_fb_intro; [lia | | exact Hp]. split; [nia|].
    assert (a - (x1 b * DP + (virtualX pScrn - Y2) * B + DP * i
                 + g * B * j) < g * B) by lia.
    nia.
  - replace a with ((virtualY pScrn - x2 b + i) * DP
                    + ((Y1 + g * j) * B
                       + (a - ((virtualY pScrn - x2 b) * DP + Y1 * B
                               + DP * i + g * B * j)))) by ring.
    apply in_fb_intro; [lia | | exact Hp]. split; [nia|].
    assert (a - ((virtualY pScrn - x2 b) * DP + Y1 * B + DP * i
                 + g * B * j) < g * B) by lia.
    nia.
Qed.

Lemma copy_stores_within pScrn pCir b (a : Z) :
  box_in_shadow BitmapBytePad RectangleCopier pScrn b ->
  In a (bytes_written (copy_events BitmapBytePad pScrn pCir b)) ->
  fb_extent BitmapBytePad RectangleCopier pScrn a = true.
Proof.
  intros (Hx & Hx2 & Hy & Hy2 & Hb & Hp) Ha.
  apply in_bytes_written in Ha as (t' & w & v & He & Ha).
  unfold copy_events in He. apply in_tab in He as (r & Hr & He).
  apply in_tab in He as (k & Hk & He).
  destruct He as [He|[He|[]]]; [discriminate He|].
  injection He as <- <- <-.
  assert (BN : 0 <= Z.shiftr (bitsPerPixel pScrn) 3)
    by (apply Z.shiftr_nonneg; lia).
  cbn [fb_extent].
  set (Bpp := Z.shiftr (bitsPerPixel pScrn) 3) in *.
  set (P := BitmapBytePad (displayWidth pScrn * bitsPerPixel pScrn)) in *.
  rewrite Z2Nat.id in Hr by lia. rewrite Z2Nat.id in Hk by nia.
  replace a with ((y1 b + r) * P + (x1 b * Bpp + k)) by lia.
  apply in_fb_intro; [lia | | exact Hp]. nia.
Qed.

(** Claim C2, as amended: under the caller contract, every byte a refresh
    routine stores lies within the framebuffer's extents provided the
    group-aligned row range of the box lies within the shadow as the box
    itself does (as it always does when the shadow's height is a multiple
    of the packing group; the rectangle copier and the 32 bpp blitter do
    not widen the range). *)
Theorem refresh_stores_within_fb e pScrn pCir b m :
  box_in_shadow BitmapBytePad e pScrn b ->
  rows_in_shadow e pScrn b ->
  stores_within_fb BitmapBytePad e pScrn pCir b m.
Proof.
  intros Hb Hr. unfold stores_within_fb. do 2 eexists. split.
  { apply refresh_closed. constructor; [|constructor].
    destruct e as [|d]; cbn [engine_runs box_in_shadow] in *.
    - destruct Hb as (Hx & Hx2 & Hy & Hy2 & Hbpp & Hp). split; [lia|].
      intros _. apply Z.mul_nonneg_nonneg; [lia|].
      apply Z.shiftr_nonneg. lia.
    - split; lia. }
  split; [reflexivity|].
  cbn [flat_map]. rewrite app_nil_r. apply Forall_forall. intros a Ha.
  destruct e as [|d]; cbn [engine_events] in Ha.
  - now apply (copy_stores_within pScrn pCir b).
  - now apply (blit_stores_within d pScrn pCir b).
Qed.

End Safety.

Lemma refresh_stores_within_fb_witness :
  stores_within_fb pad32 (RotatingBlitter bpp8) (screen bpp8 8 8 4)
    {| ShadowPtr := ramp; ShadowPitch := 4; rotate := 1 |}
    {| x1 := 1; y1 := 5; x2 := 3; y2 := 7 |}
    {| FbBase := blank; trace := [] |}.
Proof.
  apply (refresh_stores_within_fb pad32 (RotatingBlitter bpp8)
           (screen bpp8 8 8 4)
           {| ShadowPtr := ramp; ShadowPitch := 4; rotate := 1 |}
           {| x1 := 1; y1 := 5; x2 := 3; y2 := 7 |}
           {| FbBase := blank; trace := [] |}).
  - cbn. lia.
  - cbn. lia.
Defined.

(** Claim C2, as stated, fails: at 8 bpp under Rotate90, on a shadow 4
    wide and 6 high, the box of column 0 and rows 0 to 5 meets the caller
    contract; its rows are widened to 0 to 7 and the first store lands
    two bytes before the framebuffer. *)
Lemma refresh_store_before_fb :
  box_in_shadow pad32 (RotatingBlitter bpp8) (screen bpp8 8 6 4)
    {| x1 := 0; y1 := 0; x2 := 1; y2 := 6 |} /\
  ~ stores_within_fb pad32 (RotatingBlitter bpp8) (screen bpp8 8 6 4)
      {| ShadowPtr := ramp; ShadowPitch := 4; rotate := 1 |}
      {| x1 := 0; y1 := 0; x2 := 1; y2 := 6 |}
      {| FbBase := blank; trace := [] |}.
Proof.
  split; [cbn; lia|].
  intros (m' & es & E & T & H).
  cbn [refresh] in E. rewrite (rotating_blitter_closed pad32) in E.
  - injection E as <-. cbn [emit trace app] in T. subst es.
    rewrite Forall_forall in H. specialize (H (-2)).
    assert (I : In (-2) (bytes_written
                 (flat_map (blit_events pad32 bpp8 (screen bpp8 8 6 4)
                     {| ShadowPtr := ramp; ShadowPitch := 4; rotate := 1 |})
                     [{| x1 := 0; y1 := 0; x2 := 1; y2 := 6 |}]))).
    { vm_compute. tauto. }
    specialize (H I). vm_compute in H. discriminate H.
  - constructor; [|constructor]. unfold box_runs. cbn. lia.
Qed.

(* ================================================================= *)
(** ** Rotate270 against Rotate90 *)

Section Reflection.

Variable BitmapBytePad : Z -> Z.

(** Claim C7, as amended: for every bit depth and every box that lies
    within the shadow together with its group-aligned row range, the
    framebuffer the Rotate270 blit produces is the one the Rotate90 blit
    produces, reflected through the centre of the framebuffer. *)
Theorem rot270_is_rot90_reflected (d : depth) pScrn (sh : mem) (pitch : Z)
    (b : BoxRec) (m : machine) :
  pitch_aligned d pitch ->
  box_in_shadow BitmapBytePad (RotatingBlitter d) pScrn b ->
  rows_in_shadow (RotatingBlitter d) pScrn b ->
  rot270_reflects_rot90 BitmapBytePad d pScrn sh pitch b m.
Proof.
  intros Ha (Hx & Hx2 & Hy & Hy2 & Hp) Hr. cbn [rows_in_shadow] in Hr.
  assert (F : blit_fits BitmapBytePad d pScrn b).
  { unfold blit_fits. repeat split; lia. }
  unfold rot270_reflects_rot90.
  destruct (blit_content BitmapBytePad d pScrn
              {| ShadowPtr := sh; ShadowPitch := pitch; rotate := 1 |} b m)
    as (m90 & E90 & C90); try (cbn; lia); try assumption.
  destruct (blit_content BitmapBytePad d pScrn
              {| ShadowPtr := sh; ShadowPitch := pitch; rotate := -1 |} b m)
    as (m270 & E270 & C270); try (cbn; lia); try assumption.
  exists m90, m270. split; [exact E90|]. split; [exact E270|].
  intros x y c Hx' Hy' Hc. cbv zeta.
  pose proof (row_lo_bounds d (y1 b)). pose proof (row_hi_bounds d (y2 b)).
  specialize (C90 x y c Hx' ltac:(lia) Hc).
  specialize (C270 x y c Hx' ltac:(lia) Hc).
  unfold dst_px, rot_px, src_px in C90, C270.
  cbn [rotate ShadowPtr ShadowPitch Z.eqb Pos.eqb fst snd] in C90, C270.
  rewrite C270.
  replace (virtualY pScrn - 1 - (virtualY pScrn - 1 - x)) with x by lia.
  now rewrite C90.
Qed.

End Reflection.

Lemma rot270_is_rot90_reflected_witness :
  rot270_reflects_rot90 pad32 bpp8 (screen bpp8 8 8 4) ramp 4
    {| x1 := 1; y1 := 5; x2 := 3; y2 := 7 |}
    {| FbBase := blank; trace := [] |}.
Proof.
  apply (rot270_is_rot90_reflected pad32 bpp8 (screen bpp8 8 8 4) ramp 4
           {| x1 := 1; y1 := 5; x2 := 3; y2 := 7 |}
           {| FbBase := blank; trace := [] |}).
  - exact I.
  - cbn. lia.
  - cbn. lia.
Defined.

(** Claim C7, as stated, fails: at 24 bpp, for the fully dirty box of a
    4 x 5 shadow (a height that is not a multiple of the packing group),
    the Rotate90 blit overwrites the last pixels of each framebuffer row
    with the overscan of the next column, and the Rotate270 blit does
    not. *)
Lemma rot270_is_not_rot90_reflected :
  box_in_shadow pad32 (RotatingBlitter bpp24) (screen bpp24 5 5 4)
    (full_box 4 5) /\
  ~ rot270_reflects_rot90 pad32 bpp24 (screen bpp24 5 5 4) ramp 12
      (full_box 4 5) {| FbBase := blank; trace := [] |}.
Proof.
  split; [cbn; lia|].
  intros (m90 & m270 & E90 & E270 & H).
  rewrite (rotating_blitter_closed pad32) in E90, E270
    by (constructor; [|constructor]; unfold box_runs; cbn; lia).
  injection E90 as <-. injection E270 as <-.
  specialize (H 0 0 0 ltac:(cbn; lia) ltac:(cbn; lia) ltac:(cbn; lia)).
  vm_compute in H. discriminate H.
Qed.

(* ================================================================= *)
(** ** Packed stores against the per-pixel copy *)

Section Packing.

Variable BitmapBytePad : Z -> Z.

(** Claim C6: the packed stores write what the unrolled per-pixel copy
    writes.  The four bytes of a packed word are the four bytes packed,
    whatever their values; one round of the inner loop of any blitter
    leaves in the framebuffer what the byte-by-byte copy of the pixels of
    its group leaves; and so does the blit of a whole box against the
    per-pixel copy of the transposed region. *)
Theorem packed_blit_is_per_pixel_copy (d : depth) pScrn pCir b m :
  rotate pCir = 1 \/ rotate pCir = -1 ->
  pitch_aligned d (ShadowPitch pCir) ->
  x1 b <= x2 b -> y1 b <= y2 b ->
  (forall b0 b1 b2 b3 : byte,
      let v := wrap32 (pack4 (byte_to_Z b0) (byte_to_Z b1)
                             (byte_to_Z b2) (byte_to_Z b3)) in
      byte_of v 0 = b0 /\ byte_of v 1 = b1 /\
      byte_of v 2 = b2 /\ byte_of v 3 = b3) /\
  (forall P s t fb a,
      replay (group_events d (ShadowPtr pCir) P s t) fb a =
      replay (ref_group d (ShadowPtr pCir) P s t) fb a) /\
  exists m',
    rotating_blitter BitmapBytePad d pScrn pCir [b] m = Some (tt, m') /\
    forall a,
      FbBase m' a =
      replay (ref_blit BitmapBytePad d pScrn pCir b) (FbBase m) a.
Proof.
  intros Hr Ha Hx Hy. split; [exact pack4_bytes|]. split.
  - intros P s t. apply same_stores_replay, group_same.
  - eexists. split.
    + apply rotating_blitter_closed. constructor; [|constructor].
      split; [exact Hx | intros _; exact Hy].
    + intros a. cbn [emit FbBase flat_map]. rewrite app_nil_r.
      apply same_stores_replay. now apply blit_same.
Qed.

End Packing.

Lemma packed_blit_is_per_pixel_copy_witness :
  exists m',
    rotating_blitter pad32 bpp24 (screen bpp24 8 8 4)
      {| ShadowPtr := ramp; ShadowPitch := 12; rotate := 1 |}
      [full_box 4 8] {| FbBase := blank; trace := [] |} = Some (tt, m') /\
    forall a,
      FbBase m' a =
      replay (ref_blit pad32 bpp24 (screen bpp24 8 8 4)
                {| ShadowPtr := ramp; ShadowPitch := 12; rotate := 1 |}
                (full_box 4 8)) blank a.
Proof.
  apply (proj2 (proj2 (packed_blit_is_per_pixel_copy pad32 bpp24
           (screen bpp24 8 8 4)
           {| ShadowPtr := ramp; ShadowPitch := 12; rotate := 1 |}
           (full_box 4 8) {| FbBase := blank; trace := [] |}
           ltac:(cbn; lia) I ltac:(cbn; lia) ltac:(cbn; lia)))).
Defined.

(* ================================================================= *)
(** ** The rectangle copier *)

Section Copier.

Variable BitmapBytePad : Z -> Z.

(** Claim C3: without rotation, for a box within bounds, the copier
    copies [width * Bpp] bytes per scanline, one scanline after the other
    from the top one down, and afterwards every framebuffer byte of the
    box equals the shadow byte of the same scanline and column. *)
Theorem cirRefreshArea_copies_box pScrn pCir b m :
  box_in_shadow BitmapBytePad RectangleCopier pScrn b ->
  let Bpp := Z.shiftr (bitsPerPixel pScrn) 3 in
  let FBPitch := BitmapBytePad (displayWidth pScrn * bitsPerPixel pScrn) in
  exists m',
    cirRefreshArea BitmapBytePad pScrn pCir [b] m = Some (tt, m') /\
    trace m' =
    trace m ++
    tab (Z.to_nat (y2 b - y1 b)) (fun r =>
      tab (Z.to_nat ((x2 b - x1 b) * Bpp)) (fun k =>
        [Load ((y1 b + r) * ShadowPitch pCir + x1 b * Bpp + k) 1;
         Store ((y1 b + r) * FBPitch + x1 b * Bpp + k) 1
               (byte_to_Z (ShadowPtr pCir
                  ((y1 b + r) * ShadowPitch pCir + x1 b * Bpp + k)))])) /\
    forall y j,
      y1 b <= y < y2 b -> x1 b * Bpp <= j < x2 b * Bpp ->
      FbBase m' (y * FBPitch + j) = ShadowPtr pCir (y * ShadowPitch pCir + j).
Proof.
  intros (Hx & Hx2 & Hy & Hy2 & Hb & Hp). cbv zeta.
  assert (BN : 0 <= Z.shiftr (bitsPerPixel pScrn) 3)
    by (apply Z.shiftr_nonneg; lia).
  eexists. split.
  { apply cirRefreshArea_closed. constructor; [|constructor].
    split; [lia|]. intros _. apply Z.mul_nonneg_nonneg; lia. }
  set (Bpp := Z.shiftr (bitsPerPixel pScrn) 3) in *.
  set (P := BitmapBytePad (displayWidth pScrn * bitsPerPixel pScrn)) in *.
  split.
  - cbn [emit trace flat_map]. rewrite app_nil_r. f_equal.
    unfold copy_events. fold Bpp. fold P.
    apply tab_ext. intros r _. apply tab_ext. intros k _.
    now rewrite peek1.
  - intros y j Hy' Hj. cbn [emit FbBase flat_map]. rewrite app_nil_r.
    rewrite replay_last_write.
    assert (W : 0 <= (x2 b - x1 b) * Bpp) by (apply Z.mul_nonneg_nonneg; lia).
    rewrite (last_write_agree _ _
               (ShadowPtr pCir (y * ShadowPitch pCir + j))); [reflexivity| |].
    + intros e He Hc. unfold copy_events in He. fold Bpp in He. fold P in He.
      apply in_tab in He as (r & Hr & He).
      apply in_tab in He as (k & Hk & He).
      rewrite Z2Nat.id in Hr, Hk by lia.
      destruct He as [<-|[<-|[]]]; [discriminate Hc|].
      cbn [covers written] in *. apply andb_prop in Hc as [C1 C2].
      apply Z.leb_le in C1. apply Z.ltb_lt in C2.
      destruct (quot_rem_unique P (y1 b + r) (x1 b * Bpp + k) y j)
        as [E1 E2]; [nia | nia | lia |].
      subst y. replace ((y1 b + r) * P + j
                        - ((y1 b + r) * P + x1 b * Bpp + k)) with 0 by lia.
      rewrite peek1, byte_of_byte. f_equal. lia.
    + exists (Store (y * P + j) 1
                (peek (ShadowPtr pCir) (y * ShadowPitch pCir + j) 1)).
      split.
      * unfold copy_events. fold Bpp. fold P. apply in_tab.
        exists (y - y1 b). split; [lia|]. apply in_tab.
        exists (j - x1 b * Bpp). split; [lia|]. right. left.
        f_equal; [lia|]. f_equal. lia.
      * cbn [covers]. apply andb_true_intro. split;
          [apply Z.leb_le | apply Z.ltb_lt]; lia.
Qed.

End Copier.

Lemma cirRefreshArea_copies_box_witness :
  exists m',
    cirRefreshArea pad32 (screen bpp16 6 6 4)
      {| ShadowPtr := ramp; ShadowPitch := 12; rotate := 0 |}
      [ {| x1 := 1; y1 := 1; x2 := 3; y2 := 3 |} ]
      {| FbBase := blank; trace := [] |} = Some (tt, m') /\
    forall y j, 1 <= y < 3 -> 2 <= j < 6 ->
      FbBase m' (y * 12 + j) = ramp (y * 12 + j).
Proof.
  destruct (cirRefreshArea_copies_box pad32 (screen bpp16 6 6 4)
              {| ShadowPtr := ramp; ShadowPitch := 12; rotate := 0 |}
              {| x1 := 1; y1 := 1; x2 := 3; y2 := 3 |}
              {| FbBase := blank; trace := [] |})
    as (m' & E & _ & C).
  - cbn. lia.
  - exists m'. split; [exact E|]. intros y j Hy Hj. apply (C y j); cbn; lia.
Defined.

(* ================================================================= *)
(** ** The rows a blit reads *)

Lemma group_loads (d : depth) (sh : mem) (P s t a w : Z) :
  In (Load a w) (group_events d sh P s t) ->
  exists r c, 0 <= r < group_of d /\ 0 <= c /\ c + w <= Bpp_of d /\
              a = s + P * r + c.
Proof.
  destruct d; cbn [group_events group_of Bpp_of In]; intros H;
    repeat match goal with
           | H : _ \/ _ |- _ => destruct H as [H|H]
           | H : False |- _ => destruct H
           | H : Store _ _ _ = Load _ _ |- _ => discriminate H
           | H : Load _ _ = Load _ _ |- _ => injection H as <- <-
           end.
  all: first
    [ exists 0, 0; repeat split; lia
    | exists 1, 0; repeat split; lia
    | exists 2, 0; repeat split; lia
    | exists 3, 0; repeat split; lia
    | exists 0, 1; repeat split; lia
    | exists 1, 1; repeat split; lia
    | exists 2, 1; repeat split; lia
    | exists 3, 1; repeat split; lia
    | exists 0, 2; repeat split; lia
    | exists 1, 2; repeat split; lia
    | exists 2, 2; repeat split; lia
    | exists 3, 2; repeat split; lia ].
Qed.

Lemma group_loads_all (d : depth) (sh : mem) (P s t r : Z) :
  0 <= r < group_of d ->
  exists w, In (Load (s + P * r) w) (group_events d sh P s t).
Proof.
  intros Hr.
  assert (C : r = 0 \/ r = 1 \/ r = 2 \/ r = 3)
    by (destruct d; cbn [group_of] in Hr; lia).
  destruct d; cbn [group_events group_of In] in *;
    destruct C as [ -> | [ -> | [ -> | -> ] ] ]; try lia;
    eexists;
    repeat match goal with
           | |- Load ?a _ = Load ?b _ \/ _ =>
               first [ left; f_equal; try reflexivity; lia
                     | right ]
           | |- Store _ _ _ = Load _ _ \/ _ => right
           end.
Qed.

Section Reads.

Variable BitmapBytePad : Z -> Z.

(** Claim C5, as amended: each rotating blitter works on the row range of
    the box widened to packing-group boundaries, [y1] rounded down and
    [y2] rounded up to a multiple of 4 at 8 and 24 bpp and of 2 at 16 bpp,
    unchanged at 32 bpp.  It reads every pixel of the widened range in the
    columns of the box and nothing else, hence at most [group - 1]
    scanlines beyond each of the two row edges of the box (up to twice
    that in all). *)
Theorem blit_reads_aligned_rows (d : depth) pScrn pCir b m :
  rotate pCir = 1 \/ rotate pCir = -1 ->
  pitch_aligned d (ShadowPitch pCir) ->
  x1 b <= x2 b -> y1 b <= y2 b ->
  row_lo d (y1 b) = group_of d * (y1 b / group_of d) /\
  row_hi d (y2 b) =
    group_of d * ((y2 b + (group_of d - 1)) / group_of d) /\
  y1 b - (group_of d - 1) <= row_lo d (y1 b) <= y1 b /\
  y2 b <= row_hi d (y2 b) <= y2 b + (group_of d - 1) /\
  (d = bpp32 -> row_lo d (y1 b) = y1 b /\ row_hi d (y2 b) = y2 b) /\
  exists m' es,
    rotating_blitter BitmapBytePad d pScrn pCir [b] m = Some (tt, m') /\
    trace m' = trace m ++ es /\
    (forall a w, In (Load a w) es ->
       exists x y c,
         x1 b <= x < x2 b /\ row_lo d (y1 b) <= y < row_hi d (y2 b) /\
         0 <= c /\ c + w <= Bpp_of d /\ a = src_px d pCir x y + c) /\
    (forall x y,
       x1 b <= x < x2 b -> row_lo d (y1 b) <= y < row_hi d (y2 b) ->
       exists w, In (Load (src_px d pCir x y) w) es).
Proof.
  intros Hr Ha Hx Hy.
  split; [apply row_lo_eq|]. split; [apply row_hi_eq|].
  split; [apply row_lo_bounds|]. split; [apply row_hi_bounds|].
  split; [intros ->; split; [apply row_lo_32 | apply row_hi_32]|].
  do 2 eexists. split.
  { apply rotating_blitter_closed. constructor; [|constructor].
    split; [exact Hx | intros _; exact Hy]. }
  split; [reflexivity|]. cbn [flat_map]. rewrite app_nil_r.
  pose proof (rounds_eq d b) as RE.
  pose proof (rounds_nonneg d b Hy) as RN.
  pose proof (group_of_pos d) as G. pose proof (Bpp_of_pos d) as BP.
  pose proof (src_pitch_eq d pCir Hr Ha) as SPE.
  unfold blit_events, src_start, src_px. rewrite SPE.
  set (B := Bpp_of d) in *. set (g := group_of d) in *.
  set (Y1 := row_lo d (y1 b)) in *. set (Y2 := row_hi d (y2 b)) in *.
  set (S := ShadowPitch pCir) in *.
  split.
  - intros a w Hin. apply in_tab in Hin as (i & Hi & Hin).
    apply in_tab in Hin as (j & Hj & Hin).
    apply group_loads in Hin as (r & c & Hr' & Hc & Hcw & ->).
    fold g in Hr'. fold B in Hcw. rewrite Z2Nat.id in Hi, Hj by lia.
    destruct Hr as [R|R]; rewrite R; cbn [Z.eqb Pos.eqb].
    + exists (x1 b + i), (Y2 - 1 - (g * j + r)), c.
      repeat split; first [lia | nia].
    + exists (x2 b - 1 - i), (Y1 + (g * j + r)), c.
      repeat split; first [lia | nia].
  - intros x y Hx' Hy'.
    destruct Hr as [R|R]; rewrite R; cbn [Z.eqb Pos.eqb].
    + set (q := Y2 - 1 - y).
      destruct (group_loads_all d (ShadowPtr pCir) (- (1) * S)
                  ((1 - Y2) * (- (1) * S) + x1 b * B + 1 * B * (x - x1 b)
                   + g * (- (1) * S) * (q / g))
                  ((dst_start BitmapBytePad d pScrn pCir b
                    + fb_pitch BitmapBytePad d pScrn * (x - x1 b)
                    + g * B * (q / g)))
                  (q mod g)) as (w & Hw).
      { apply Z.mod_pos_bound. lia. }
      exists w. apply in_tab. exists (x - x1 b).
      split; [rewrite Z2Nat.id by lia; lia|].
      apply in_tab. exists (q / g).
      pose proof (Z.div_mod q g ltac:(lia)).
      pose proof (Z.mod_pos_bound q g G).
      split; [rewrite Z2Nat.id by lia; subst q; nia|].
      replace (y * S + x * B)
        with ((1 - Y2) * (- (1) * S) + x1 b * B + 1 * B * (x - x1 b)
              + g * (- (1) * S) * (q / g) + - (1) * S * (q mod g));
        [exact Hw|].
      subst q. nia.
    + set (q := y - Y1).
      destruct (group_loads_all d (ShadowPtr pCir) (- (-1) * S)
                  (Y1 * (- (-1) * S) + (x2 b - 1) * B
                   + -1 * B * (x2 b - 1 - x)
                   + g * (- (-1) * S) * (q / g))
                  ((dst_start BitmapBytePad d pScrn pCir b
                    + fb_pitch BitmapBytePad d pScrn * (x2 b - 1 - x)
                    + g * B * (q / g)))
                  (q mod g)) as (w & Hw).
      { apply Z.mod_pos_bound. lia. }
      exists w. apply in_tab. exists (x2 b - 1 - x).
      split; [rewrite Z2Nat.id by lia; lia|].
      apply in_tab. exists (q / g).
      pose proof (Z.div_mod q g ltac:(lia)).
      pose proof (Z.mod_pos_bound q g G).
      split; [rewrite Z2Nat.id by lia; subst q; nia|].
      replace (y * S + x * B)
        with (Y1 * (- (-1) * S) + (x2 b - 1) * B
              + -1 * B * (x2 b - 1 - x)
              + g * (- (-1) * S) * (q / g) + - (-1) * S * (q mod g));
        [exact Hw|].
      subst q. nia.
Qed.

End Reads.

Lemma blit_reads_aligned_rows_witness :
  0 <= row_lo bpp8 3 <= 3 /\ 5 <= row_hi bpp8 5 <= 8.
Proof.
  destruct (blit_reads_aligned_rows pad32 bpp8 (screen bpp8 8 8 4)
              {| ShadowPtr := ramp; ShadowPitch := 4; rotate := 1 |}
              {| x1 := 0; y1 := 3; x2 := 1; y2 := 5 |}
              {| FbBase := blank; trace := [] |}
              ltac:(cbn; lia) I ltac:(cbn; lia) ltac:(cbn; lia))
    as (_ & _ & L & H & _).
  cbn [y1 y2 group_of] in L, H. split; [exact L | exact H].
Defined.

(** Claim C5, as stated, fails in its count: at 8 bpp the box of rows 3
    and 4 is widened to rows 0 to 7, so six scanlines outside the box are
    read, three above it and three below, not at most three. *)
Lemma blit_reads_six_rows_beyond :
  ~ reads_beyond_at_most pad32 (group_of bpp8 - 1) bpp8 (screen bpp8 8 8 4)
      {| ShadowPtr := ramp; ShadowPitch := 4; rotate := 1 |}
      {| x1 := 0; y1 := 3; x2 := 1; y2 := 5 |}
      {| FbBase := blank; trace := [] |}.
Proof.
  intros (m' & es & E & T & H).
  rewrite (rotating_blitter_closed pad32) in E
    by (constructor; [|constructor]; unfold box_runs; cbn; lia).
  injection E as <-. cbn [emit trace app] in T. subst es.
  revert H. vm_compute. intros H. apply H. reflexivity.
Qed.

(* ================================================================= *)
(** ** Lists of boxes *)

Lemma last_write_writes (es : list event) (a : Z) (v : byte) :
  last_write es a = Some v -> writes es a v.
Proof.
  revert v. induction es as [|e es IH]; intros v; [discriminate|].
  cbn [last_write]. destruct (last_write es a) as [v'|].
  - intros [= <-]. destruct (IH v' eq_refl) as (e' & H1 & H2 & H3).
    exists e'. split; [now right | now split].
  - destruct (covers e a) eqn:C; [|discriminate]. intros [= <-].
    exists e. split; [now left | now split].
Qed.

Lemma writes_last_write (es : list event) (a : Z) (v : byte) :
  (forall v', writes es a v' -> v' = v) -> writes es a v ->
  last_write es a = Some v.
Proof.
  intros F (e & H1 & H2 & H3). apply last_write_agree.
  - intros e' He' Hc. apply F. exists e'. now split.
  - exists e. now split.
Qed.

Lemma writes_flat_map {A} (f : A -> list event) (l : list A) a v :
  writes (flat_map f l) a v <-> exists x, In x l /\ writes (f x) a v.
Proof.
  unfold writes. split.
  - intros (e & He & H). apply in_flat_map in He as (x & Hx & He).
    exists x. split; [exact Hx|]. exists e. now split.
  - intros (x & Hx & e & He & H). exists e. split; [|exact H].
    apply in_flat_map. exists x. now split.
Qed.


Section Lists.

Variable BitmapBytePad : Z -> Z.

Lemma writes_ref_events e pScrn pCir b a v :
  writes (ref_events BitmapBytePad e pScrn pCir b) a v <->
  byte_image BitmapBytePad e pScrn pCir b a v.
Proof.
  destruct e as [|d]; cbn [ref_events byte_image].
  - unfold writes, copy_events. split.
    + intros (e & He & Hc & Hw). apply in_tab in He as (r & Hr & He).
      apply in_tab in He as (k & Hk & He).
      destruct He as [<-|[<-|[]]]; [discriminate Hc|].
      cbn [covers written] in *. apply andb_prop in Hc as [C1 C2].
      apply Z.leb_le in C1. apply Z.ltb_lt in C2.
      exists (y1 b + r), (x1 b * Z.shiftr (bitsPerPixel pScrn) 3 + k).
      repeat split; try lia.
      rewrite <- Hw, peek1.
      replace (a - _) with 0 by lia. rewrite byte_of_byte. f_equal. lia.
    + intros (y & j & Hy & Hj & -> & ->).
      eexists (Store _ 1 _). split; [|split].
      * apply in_tab. exists (y - y1 b). split; [lia|].
        apply in_tab.
        exists (j - x1 b * Z.shiftr (bitsPerPixel pScrn) 3).
        split; [lia|]. right. left. reflexivity.
      * cbn [covers]. apply andb_true_intro.
        split; [apply Z.leb_le | apply Z.ltb_lt]; lia.
      * cbn [written]. rewrite peek1.
        match goal with |- byte_of _ ?k = _ => replace k with 0 by lia end.
        rewrite byte_of_byte. f_equal. lia.
  - unfold writes. split.
    + intros (e & He & Hc & Hw).
      apply in_ref_blit in He as (x & y & c & Hx & Hy & Hcc & [->| ->]);
        [discriminate Hc|].
      cbn [covers written] in *. apply andb_prop in Hc as [C1 C2].
      apply Z.leb_le in C1. apply Z.ltb_lt in C2.
      exists x, y, c. repeat split; try lia.
      rewrite <- Hw. replace (a - _) with 0 by lia.
      now rewrite byte_of_byte.
    + intros (x & y & c & Hx & Hy & Hc & -> & ->).
      eexists (Store _ 1 _). split; [|split].
      * apply in_ref_blit. exists x, y, c. repeat split; try lia.
        right. reflexivity.
      * cbn [covers]. apply andb_true_intro.
        split; [apply Z.leb_le | apply Z.ltb_lt]; lia.
      * cbn [written]. rewrite Z.sub_diag. apply byte_of_byte.
Qed.

(** Two boxes of one contract never disagree on the byte for a place. *)
Lemma byte_image_functional e pScrn pCir b b' a v v' :
  box_fits BitmapBytePad e pScrn b -> box_fits BitmapBytePad e pScrn b' ->
  byte_image BitmapBytePad e pScrn pCir b a v ->
  byte_image BitmapBytePad e pScrn pCir b' a v' ->
  v = v'.
Proof.
  destruct e as [|d]; cbn [byte_image]; unfold box_fits;
    cbn [box_in_shadow rows_in_shadow].
  - intros ((Hx & Hx2 & Hy & Hy2 & Hb & Hp) & _)
           ((Hx' & Hx2' & Hy' & Hy2' & _ & _) & _)
           (y & j & Y & J & -> & ->) (y' & j' & Y' & J' & E & ->).
    assert (BN : 0 <= Z.shiftr (bitsPerPixel pScrn) 3)
      by (apply Z.shiftr_nonneg; lia).
    set (Bpp := Z.shiftr (bitsPerPixel pScrn) 3) in *.
    set (P := BitmapBytePad (displayWidth pScrn * bitsPerPixel pScrn)) in *.
    assert (0 <= x1 b * Bpp /\ x2 b * Bpp <= virtualX pScrn * Bpp) by nia.
    assert (0 <= x1 b' * Bpp /\ x2 b' * Bpp <= virtualX pScrn * Bpp) by nia.
    destruct (quot_rem_unique P y j y' j') as [-> ->]; [lia | lia | exact E |].
    reflexivity.
  - intros ((Hx & Hx2 & Hy & Hy2 & Hp) & Hr)
           ((Hx' & Hx2' & Hy' & Hy2' & _) & Hr')
           (x & y & c & X & Y & C & -> & ->)
           (x' & y' & c' & X' & Y' & C' & E & ->).
    pose proof (row_lo_eq d (y1 b)) as L.
    pose proof (row_lo_eq d (y1 b')) as L'.
    pose proof (group_of_pos d) as G.
    assert (0 <= y1 b / group_of d) by (apply Z.div_pos; lia).
    assert (0 <= y1 b' / group_of d) by (apply Z.div_pos; lia).
    destruct (dst_px_inj BitmapBytePad d pScrn pCir x y c x' y' c')
      as (-> & -> & ->); try assumption; try nia.
    reflexivity.
Qed.

Lemma engine_same_ref e pScrn pCir (l : list BoxRec) :
  engine_ok e pCir -> Forall (fun b => y1 b <= y2 b) l ->
  same_stores (flat_map (engine_events BitmapBytePad e pScrn pCir) l)
              (flat_map (ref_events BitmapBytePad e pScrn pCir) l).
Proof.
  intros Hok Hl. apply same_stores_flat_map. intros b Hb.
  rewrite Forall_forall in Hl. specialize (Hl b Hb).
  destruct e as [|d]; cbn [engine_events ref_events engine_ok] in *.
  - apply same_stores_refl.
  - destruct Hok as [Hr Ha]. now apply blit_same.
Qed.

Lemma box_fits_runs e pScrn b :
  box_fits BitmapBytePad e pScrn b -> engine_runs e pScrn b.
Proof.
  destruct e as [|d]; unfold box_fits;
    cbn [box_in_shadow rows_in_shadow engine_runs].
  - intros ((Hx & Hx2 & Hy & Hy2 & Hb & Hp) & _). split; [lia|].
    intros _. apply Z.mul_nonneg_nonneg; [lia|].
    apply Z.shiftr_nonneg. lia.
  - intros ((Hx & Hx2 & Hy & Hy2 & Hp) & _). split; lia.
Qed.

Lemma box_fits_rows e pScrn b :
  box_fits BitmapBytePad e pScrn b -> y1 b <= y2 b.
Proof.
  destruct e as [|d]; unfold box_fits; cbn [box_in_shadow]; intros (H & _);
    lia.
Qed.

(** What a refresh of a list of boxes leaves at every offset. *)
Lemma refresh_list_last_write e pScrn pCir (l : list BoxRec) (a : Z) :
  engine_ok e pCir -> Forall (box_fits BitmapBytePad e pScrn) l ->
  (forall b v, In b l -> byte_image BitmapBytePad e pScrn pCir b a v ->
     last_write (flat_map (engine_events BitmapBytePad e pScrn pCir) l) a
     = Some v) /\
  ((forall b v, In b l -> ~ byte_image BitmapBytePad e pScrn pCir b a v) ->
     last_write (flat_map (engine_events BitmapBytePad e pScrn pCir) l) a
     = None).
Proof.
  intros Hok Hl.
  rewrite (engine_same_ref e pScrn pCir l Hok)
    by (eapply Forall_impl; [|exact Hl]; apply box_fits_rows).
  rewrite Forall_forall in Hl. split.
  - intros b v Hb Hi. apply writes_last_write.
    + intros v' H. apply writes_flat_map in H as (b' & Hb' & H).
      apply writes_ref_events in H.
      apply (byte_image_functional e pScrn pCir b' b a v' v); auto.
    + apply writes_flat_map. exists b. split; [exact Hb|].
      now apply writes_ref_events.
  - intros Hn.
    destruct (last_write (flat_map (ref_events BitmapBytePad e pScrn pCir) l)
                a) as [v|] eqn:E; [|reflexivity].
    apply last_write_writes, writes_flat_map in E as (b & Hb & H).
    apply writes_ref_events in H. now destruct (Hn b v Hb).
Qed.

End Lists.

Section ListTheorems.

Variable BitmapBytePad : Z -> Z.

(** After a refresh of any list of boxes that meet the contract, every
    byte of every box of the list is in the framebuffer at its place,
    also where boxes of the list overlap. *)
Theorem refresh_list_content e pScrn pCir (boxes : list BoxRec) m :
  engine_ok e pCir ->
  Forall (box_fits BitmapBytePad e pScrn) boxes ->
  exists m',
    refresh BitmapBytePad e pScrn pCir boxes m = Some (tt, m') /\
    forall b a v,
      In b boxes -> byte_image BitmapBytePad e pScrn pCir b a v ->
      FbBase m' a = v.
Proof.
  intros Hok Hl. eexists. split.
  { apply refresh_closed. eapply Forall_impl; [|exact Hl].
    apply box_fits_runs. }
  intros b a v Hb Hi. cbn [emit FbBase]. rewrite replay_last_write.
  destruct (refresh_list_last_write BitmapBytePad e pScrn pCir boxes a
              Hok Hl) as [H _].
  now rewrite (H b v Hb Hi).
Qed.

(** A refresh leaves alone every framebuffer byte that is not the place
    of a byte of one of its boxes. *)
Theorem refresh_list_frame e pScrn pCir (boxes : list BoxRec) m :
  engine_ok e pCir ->
  Forall (box_fits BitmapBytePad e pScrn) boxes ->
  exists m',
    refresh BitmapBytePad e pScrn pCir boxes m = Some (tt, m') /\
    forall a,
      (forall b v, In b boxes ->
                   ~ byte_image BitmapBytePad e pScrn pCir b a v) ->
      FbBase m' a = FbBase m a.
Proof.
  intros Hok Hl. eexists. split.
  { apply refresh_closed. eapply Forall_impl; [|exact Hl].
    apply box_fits_runs. }
  intros a Hn. cbn [emit FbBase]. rewrite replay_last_write.
  destruct (refresh_list_last_write BitmapBytePad e pScrn pCir boxes a
              Hok Hl) as [_ H].
  now rewrite (H Hn).
Qed.


End ListTheorems.

Lemma refresh_list_content_witness :
  exists m',
    refresh pad32 (RotatingBlitter bpp8) (screen bpp8 8 8 4)
      {| ShadowPtr := ramp; ShadowPitch := 4; rotate := 1 |}
      [full_box 4 8; full_box 2 4] {| FbBase := blank; trace := [] |}
    = Some (tt, m') /\
    forall b a v,
      In b [full_box 4 8; full_box 2 4] ->
      byte_image pad32 (RotatingBlitter bpp8) (screen bpp8 8 8 4)
        {| ShadowPtr := ramp; ShadowPitch := 4; rotate := 1 |} b a v ->
      FbBase m' a = v.
Proof.
  apply (refresh_list_content pad32 (RotatingBlitter bpp8)
           (screen bpp8 8 8 4)
           {| ShadowPtr := ramp; ShadowPitch := 4; rotate := 1 |}
           [full_box 4 8; full_box 2 4] {| FbBase := blank; trace := [] |}).
  - cbn. split; [lia | exact I].
  - repeat constructor; cbn; lia.
Defined.

Lemma refresh_list_frame_witness :
  exists m',
    refresh pad32 RectangleCopier (screen bpp16 6 6 4)
      {| ShadowPtr := ramp; ShadowPitch := 12; rotate := 0 |}
      [ {| x1 := 1; y1 := 1; x2 := 3; y2 := 3 |} ]
      {| FbBase := blank; trace := [] |}
    = Some (tt, m') /\
    forall a,
      (forall b v,
         In b [ {| x1 := 1; y1 := 1; x2 := 3; y2 := 3 |} ] ->
         ~ byte_image pad32 RectangleCopier (screen bpp16 6 6 4)
             {| ShadowPtr := ramp; ShadowPitch := 12; rotate := 0 |} b a v) ->
      FbBase m' a = blank a.
Proof.
  apply (refresh_list_frame pad32 RectangleCopier (screen bpp16 6 6 4)
           {| ShadowPtr := ramp; ShadowPitch := 12; rotate := 0 |}
           [ {| x1 := 1; y1 := 1; x2 := 3; y2 := 3 |} ]
           {| FbBase := blank; trace := [] |}).
  - exact I.
  - repeat constructor; cbn; lia.
Defined.


(* ================================================================= *)
(** ** Splitting and widening a box *)

Lemma row_lo_idem (d : depth) (y : Z) : row_lo d (row_lo d y) = row_lo d y.
Proof.
  rewrite (row_lo_eq d (row_lo d y)), (row_lo_eq d y).
  pose proof (group_of_pos d).
  rewrite (Z.mul_comm (group_of d) (y / group_of d)), Z.div_mul by lia.
  ring.
Qed.

Lemma row_hi_idem (d : depth) (y : Z) : row_hi d (row_hi d y) = row_hi d y.
Proof.
  apply row_hi_aligned. rewrite row_hi_eq. pose proof (group_of_pos d).
  rewrite Z.mul_comm. apply Z.mod_mul. lia.
Qed.

Section Splits.

Variable BitmapBytePad : Z -> Z.

(** A rotating blitter does for a box exactly what it does for the box
    with its rows widened to packing-group boundaries: the same accesses
    in the same order and the same framebuffer. *)
Theorem blit_of_widened_box (d : depth) pScrn pCir b m :
  x1 b <= x2 b -> y1 b <= y2 b ->
  rotating_blitter BitmapBytePad d pScrn pCir [widen d b] m =
  rotating_blitter BitmapBytePad d pScrn pCir [b] m.
Proof.
  intros Hx Hy.
  pose proof (row_lo_bounds d (y1 b)). pose proof (row_hi_bounds d (y2 b)).
  rewrite !(rotating_blitter_closed BitmapBytePad)
    by (constructor; [|constructor]; unfold box_runs; cbn [widen x1 x2 y1 y2];
        lia).
  do 3 f_equal. cbn [flat_map]. f_equal.
  unfold blit_events, rounds, src_start, dst_start.
  cbn [widen x1 x2 y1 y2]. now rewrite row_lo_idem, row_hi_idem.
Qed.

(** The rectangle copier goes down the scanlines: copying a box is
    copying its upper part and then its lower part, whatever row it is cut
    at. *)
Theorem cirRefreshArea_split_rows pScrn pCir b (ym : Z) m :
  y1 b <= ym <= y2 b ->
  0 <= (x2 b - x1 b) * Z.shiftr (bitsPerPixel pScrn) 3 ->
  cirRefreshArea BitmapBytePad pScrn pCir [b] m =
  cirRefreshArea BitmapBytePad pScrn pCir
    [ {| x1 := x1 b; y1 := y1 b; x2 := x2 b; y2 := ym |};
      {| x1 := x1 b; y1 := ym; x2 := x2 b; y2 := y2 b |} ] m.
Proof.
  intros Hy Hw.
  rewrite !(cirRefreshArea_closed BitmapBytePad)
    by (repeat constructor; cbn [x1 x2 y1 y2]; lia).
  do 3 f_equal. cbn [flat_map]. rewrite !app_nil_r. unfold copy_events.
  cbn [x1 x2 y1 y2].
  replace (Z.to_nat (y2 b - y1 b))
    with (Z.to_nat (ym - y1 b) + Z.to_nat (y2 b - ym))%nat by lia.
  rewrite tab_app. f_equal. apply tab_ext. intros r _.
  apply tab_ext. intros k _. rewrite Z2Nat.id by lia.
  replace (y1 b + (ym - y1 b + r)) with (ym + r) by lia. reflexivity.
Qed.

(** A rotating blitter goes through the columns of a box in turn, from
    the left one under Rotate90 and from the right one under Rotate270:
    blitting a box is blitting its two parts, cut at any column, in that
    order. *)
Theorem blit_split_columns (d : depth) pScrn pCir b (xm : Z) m :
  x1 b <= xm <= x2 b -> y1 b <= y2 b ->
  let left := {| x1 := x1 b; y1 := y1 b; x2 := xm; y2 := y2 b |} in
  let right := {| x1 := xm; y1 := y1 b; x2 := x2 b; y2 := y2 b |} in
  (rotate pCir = 1 ->
   rotating_blitter BitmapBytePad d pScrn pCir [b] m =
   rotating_blitter BitmapBytePad d pScrn pCir [left; right] m) /\
  (rotate pCir = -1 ->
   rotating_blitter BitmapBytePad d pScrn pCir [b] m =
   rotating_blitter BitmapBytePad d pScrn pCir [right; left] m).
Proof.
  intros Hx Hy. cbv zeta. split; intros R.
  - rewrite !(rotating_blitter_closed BitmapBytePad)
      by (repeat constructor; cbn [x1 x2 y1 y2]; lia).
    do 3 f_equal. cbn [flat_map]. rewrite !app_nil_r.
    unfold blit_events, rounds, src_start, dst_start.
    cbn [x1 x2 y1 y2]. rewrite R. cbn [Z.eqb Pos.eqb].
    replace (Z.to_nat (x2 b - x1 b))
      with (Z.to_nat (xm - x1 b) + Z.to_nat (x2 b - xm))%nat by lia.
    rewrite tab_app. f_equal. apply tab_ext. intros i _.
    apply tab_ext. intros j _. rewrite Z2Nat.id by lia. f_equal; ring.
  - rewrite !(rotating_blitter_closed BitmapBytePad)
      by (repeat constructor; cbn [x1 x2 y1 y2]; lia).
    do 3 f_equal. cbn [flat_map]. rewrite !app_nil_r.
    unfold blit_events, rounds, src_start, dst_start.
    cbn [x1 x2 y1 y2]. rewrite R. cbn [Z.eqb Pos.eqb].
    replace (Z.to_nat (x2 b - x1 b))
      with (Z.to_nat (x2 b - xm) + Z.to_nat (xm - x1 b))%nat by lia.
    rewrite tab_app. f_equal. apply tab_ext. intros i _.
    apply tab_ext. intros j _. rewrite Z2Nat.id by lia. f_equal; ring.
Qed.

(** Below 8 bits per pixel the copier's byte count per pixel,
    [bitsPerPixel >> 3], is zero: it copies nothing, whatever the boxes. *)
Theorem cirRefreshArea_below_8bpp pScrn pCir (boxes : list BoxRec) m :
  0 <= bitsPerPixel pScrn < 8 ->
  Forall (fun b => y1 b <= y2 b) boxes ->
  cirRefreshArea BitmapBytePad pScrn pCir boxes m = Some (tt, m).
Proof.
  intros Hb Hl.
  assert (B0 : Z.shiftr (bitsPerPixel pScrn) 3 = 0).
  { rewrite Z.shiftr_div_pow2 by lia. apply Z.div_small. cbn. lia. }
  rewrite cirRefreshArea_closed.
  - rewrite flat_map_nil; [now rewrite emit_nil|].
    intros b _. unfold copy_events. rewrite B0, Z.mul_0_r. apply tab_nil.
  - eapply Forall_impl; [|exact Hl]. intros b Hy. split; [exact Hy|].
    intros _. rewrite B0. lia.
Qed.

End Splits.

Lemma blit_of_widened_box_witness :
  rotating_blitter pad32 bpp8 (screen bpp8 8 8 4)
    {| ShadowPtr := ramp; ShadowPitch := 4; rotate := 1 |}
    [widen bpp8 {| x1 := 1; y1 := 5; x2 := 3; y2 := 7 |}]
    {| FbBase := blank; trace := [] |} =
  rotating_blitter pad32 bpp8 (screen bpp8 8 8 4)
    {| ShadowPtr := ramp; ShadowPitch := 4; rotate := 1 |}
    [ {| x1 := 1; y1 := 5; x2 := 3; y2 := 7 |} ]
    {| FbBase := blank; trace := [] |}.
Proof.
  apply (blit_of_widened_box pad32 bpp8 (screen bpp8 8 8 4)
           {| ShadowPtr := ramp; ShadowPitch := 4; rotate := 1 |}
           {| x1 := 1; y1 := 5; x2 := 3; y2 := 7 |}
           {| FbBase := blank; trace := [] |}); cbn; lia.
Defined.

Lemma cirRefreshArea_split_rows_witness :
  cirRefreshArea pad32 (screen bpp16 6 6 4)
    {| ShadowPtr := ramp; ShadowPitch := 12; rotate := 0 |}
    [ {| x1 := 1; y1 := 0; x2 := 3; y2 := 4 |} ]
    {| FbBase := blank; trace := [] |} =
  cirRefreshArea pad32 (screen bpp16 6 6 4)
    {| ShadowPtr := ramp; ShadowPitch := 12; rotate := 0 |}
    [ {| x1 := 1; y1 := 0; x2 := 3; y2 := 1 |};
      {| x1 := 1; y1 := 1; x2 := 3; y2 := 4 |} ]
    {| FbBase := blank; trace := [] |}.
Proof.
  apply (cirRefreshArea_split_rows pad32 (screen bpp16 6 6 4)
           {| ShadowPtr := ramp; ShadowPitch := 12; rotate := 0 |}
           {| x1 := 1; y1 := 0; x2 := 3; y2 := 4 |} 1
           {| FbBase := blank; trace := [] |}); cbn; lia.
Defined.

Lemma blit_split_columns_witness :
  rotating_blitter pad32 bpp8 (screen bpp8 8 8 4)
    {| ShadowPtr := ramp; ShadowPitch := 4; rotate := -1 |}
    [ {| x1 := 0; y1 := 0; x2 := 4; y2 := 8 |} ]
    {| FbBase := blank; trace := [] |} =
  rotating_blitter pad32 bpp8 (screen bpp8 8 8 4)
    {| ShadowPtr := ramp; ShadowPitch := 4; rotate := -1 |}
    [ {| x1 := 1; y1 := 0; x2 := 4; y2 := 8 |};
      {| x1 := 0; y1 := 0; x2 := 1; y2 := 8 |} ]
    {| FbBase := blank; trace := [] |}.
Proof.
  apply (proj2 (blit_split_columns pad32 bpp8 (screen bpp8 8 8 4)
           {| ShadowPtr := ramp; ShadowPitch := 4; rotate := -1 |}
           {| x1 := 0; y1 := 0; x2 := 4; y2 := 8 |} 1
           {| FbBase := blank; trace := [] |}
           ltac:(cbn; lia) ltac:(cbn; lia))).
  reflexivity.
Defined.

Lemma cirRefreshArea_below_8bpp_witness :
  cirRefreshArea pad32
    {| bitsPerPixel := 4; displayWidth := 8; virtualX := 8; virtualY := 4;
       pScreen := {| width := 8; height := 4 |} |}
    {| ShadowPtr := ramp; ShadowPitch := 4; rotate := 0 |}
    [full_box 8 4] {| FbBase := blank; trace := [] |}
  = Some (tt, {| FbBase := blank; trace := [] |}).
Proof.
  apply (cirRefreshArea_below_8bpp pad32
    {| bitsPerPixel := 4; displayWidth := 8; virtualX := 8; virtualY := 4;
       pScreen := {| width := 8; height := 4 |} |}
    {| ShadowPtr := ramp; ShadowPitch := 4; rotate := 0 |}
    [full_box 8 4] {| FbBase := blank; trace := [] |}).
  - cbn. lia.
  - repeat constructor. cbn. lia.
Defined.

(* ================================================================= *)
(** ** The pointer transform, both ways and against the blit *)

(** The two branches of the pointer transform undo each other: what the
    Rotate90 branch makes of a position, the other branch, on the screen
    with the transposed dimensions, takes back to it, and conversely. *)
Theorem cirPointerMoved_round_trip pScrn pCir pScrn' pCir' (x y : Z) :
  (rotate pCir = 1 -> rotate pCir' <> 1 ->
   width (pScreen pScrn') = height (pScreen pScrn) ->
   cirPointerMoved pScrn pCir (cirPointerMoved pScrn' pCir' pair) x y
   = (x, y)) /\
  (rotate pCir <> 1 -> rotate pCir' = 1 ->
   height (pScreen pScrn') = width (pScreen pScrn) ->
   cirPointerMoved pScrn pCir (cirPointerMoved pScrn' pCir' pair) x y
   = (x, y)).
Proof.
  unfold cirPointerMoved. split; intros R R' E.
  - rewrite R. cbn [Z.eqb Pos.eqb].
    destruct (Z.eqb_spec (rotate pCir') 1); [contradiction|].
    rewrite E. f_equal. lia.
  - destruct (Z.eqb_spec (rotate pCir) 1); [contradiction|].
    rewrite R'. cbn [Z.eqb Pos.eqb]. rewrite E. f_equal. lia.
Qed.

Lemma cirPointerMoved_round_trip_witness :
  cirPointerMoved (screen bpp8 800 800 600)
    {| ShadowPtr := blank; ShadowPitch := 800; rotate := 1 |}
    (cirPointerMoved (screen bpp8 600 600 800)
       {| ShadowPtr := blank; ShadowPitch := 600; rotate := -1 |} pair)
    10 5 = (10, 5).
Proof.
  apply (proj1 (cirPointerMoved_round_trip (screen bpp8 800 800 600)
           {| ShadowPtr := blank; ShadowPitch := 800; rotate := 1 |}
           (screen bpp8 600 600 800)
           {| ShadowPtr := blank; ShadowPitch := 600; rotate := -1 |}
           10 5)); cbn; lia.
Defined.

Section PointerAndBlit.

Variable BitmapBytePad : Z -> Z.


End PointerAndBlit.


(* ================================================================= *)
(** ** No byte is stored twice *)





Section Once.

Variable BitmapBytePad : Z -> Z.


End Once.


(* ================================================================= *)
(** ** Two blits in a row: back again, and the half turn *)

Section TwoPassProofs.

Variable BitmapBytePad : Z -> Z.

(** After two passes every shadow pixel is where the two rotations, one
    after the other, send it. *)
Lemma blit_twice_content (d : depth) (r1 r2 : Z) (sh : mem)
    (pitch w h dw1 dw2 : Z) (fb1 fb2 : mem) :
  r1 = 1 \/ r1 = -1 -> r2 = 1 \/ r2 = -1 ->
  0 <= w -> 0 <= h ->
  w mod group_of d = 0 -> h mod group_of d = 0 ->
  pitch_aligned d pitch ->
  h * Bpp_of d <= fb_pitch BitmapBytePad d (screen d dw1 h w) ->
  w * Bpp_of d <= fb_pitch BitmapBytePad d (screen d dw2 w h) ->
  exists out,
    blit_twice BitmapBytePad d r1 r2 sh pitch w h dw1 dw2 fb1 fb2
    = Some out /\
    forall x y c, 0 <= x < w -> 0 <= y < h -> 0 <= c < Bpp_of d ->
      let pCir1 := {| ShadowPtr := sh; ShadowPitch := pitch;
                      rotate := r1 |} in
      let pCir2 := {| ShadowPtr := sh; ShadowPitch := pitch;
                      rotate := r2 |} in
      let p1 := rot_px (screen d dw1 h w) pCir1 x y in
      let p2 := rot_px (screen d dw2 w h) pCir2 (fst p1) (snd p1) in
      out (fb_px BitmapBytePad d (screen d dw2 w h) (fst p2) (snd p2) + c)
      = sh (y * pitch + x * Bpp_of d + c).
Proof.
  intros R1 R2 Hw Hh Aw Ah Ap P1 P2. unfold blit_twice.
  set (pScrn1 := screen d dw1 h w).
  set (pCir1 := {| ShadowPtr := sh; ShadowPitch := pitch; rotate := r1 |}).
  destruct (blit_content BitmapBytePad d pScrn1 pCir1 (full_box w h)
              {| FbBase := fb1; trace := [] |}) as (m1 & E1 & C1);
    try assumption.
  { unfold blit_fits. cbn [full_box x1 x2 y1 y2 pScrn1 screen virtualX
                            virtualY].
    rewrite (row_hi_aligned d h Ah). repeat split; try lia. exact P1. }
  rewrite E1.
  set (pScrn2 := screen d dw2 w h).
  set (pCir2 := {| ShadowPtr := FbBase m1;
                   ShadowPitch := fb_pitch BitmapBytePad d pScrn1;
                   rotate := r2 |}).
  destruct (blit_content BitmapBytePad d pScrn2 pCir2 (full_box h w)
              {| FbBase := fb2; trace := [] |}) as (m2 & E2 & C2);
    try assumption.
  { destruct d; cbn [pitch_aligned pCir2 ShadowPitch fb_pitch]; trivial.
    - rewrite Z.mul_comm. apply Z.mod_mul. lia.
    - rewrite Z.mul_comm. apply Z.mod_mul. lia. }
  { unfold blit_fits. cbn [full_box x1 x2 y1 y2 pScrn2 screen virtualX
                            virtualY].
    rewrite (row_hi_aligned d w Aw). repeat split; try lia. exact P2. }
  rewrite E2. exists (FbBase m2). split; [reflexivity|].
  intros x y c Hx Hy Hc. cbv zeta.
  cbn [full_box x1 x2 y1 y2] in C1, C2.
  rewrite row_lo_0 in C1, C2.
  rewrite (row_hi_aligned d h Ah) in C1.
  rewrite (row_hi_aligned d w Aw) in C2.
  specialize (C1 x y c ltac:(lia) ltac:(lia) Hc).
  unfold dst_px, src_px in C1, C2.
  cbn [pCir1 pCir2 ShadowPtr ShadowPitch] in C1, C2.
  rewrite <- C1. clear C1.
  assert (Q : 0 <= fst (rot_px pScrn1 pCir1 x y) < h /\
              0 <= snd (rot_px pScrn1 pCir1 x y) < w).
  { unfold rot_px. cbn [pCir1 rotate pScrn1 screen virtualX virtualY].
    destruct (r1 =? 1); cbn [fst snd]; lia. }
  specialize (C2 (fst (rot_px pScrn1 pCir1 x y))
                 (snd (rot_px pScrn1 pCir1 x y)) c
                 ltac:(lia) ltac:(lia) Hc).
  assert (T : rot_px pScrn2 pCir2 = rot_px pScrn2
                {| ShadowPtr := sh; ShadowPitch := pitch; rotate := r2 |})
    by reflexivity.
  rewrite T in C2. rewrite C2. unfold fb_px. f_equal; ring.
Qed.

(** Rotate270 and then Rotate90 give the buffer back, as Rotate90 and
    then Rotate270 do: for dimensions that are multiples of the packing
    group, each rotation undoes the other. *)
Theorem rot270_then_90_lossless (d : depth) (sh : mem)
    (pitch w h dw1 dw2 : Z) (fb1 fb2 : mem) :
  0 <= w -> 0 <= h ->
  w mod group_of d = 0 -> h mod group_of d = 0 ->
  pitch_aligned d pitch ->
  h * Bpp_of d <= fb_pitch BitmapBytePad d (screen d dw1 h w) ->
  w * Bpp_of d <= fb_pitch BitmapBytePad d (screen d dw2 w h) ->
  exists out,
    blit_twice BitmapBytePad d (-1) 1 sh pitch w h dw1 dw2 fb1 fb2
    = Some out /\
    forall x y c, 0 <= x < w -> 0 <= y < h -> 0 <= c < Bpp_of d ->
      out (fb_px BitmapBytePad d (screen d dw2 w h) x y + c)
      = sh (y * pitch + x * Bpp_of d + c).
Proof.
  intros Hw Hh Aw Ah Ap P1 P2.
  destruct (blit_twice_content d (-1) 1 sh pitch w h dw1 dw2 fb1 fb2)
    as (out & E & H); try assumption; try lia.
  exists out. split; [exact E|]. intros x y c Hx Hy Hc.
  specialize (H x y c Hx Hy Hc). unfold rot_px in H.
  cbn [rotate Z.eqb Pos.eqb fst snd screen virtualX virtualY] in H.
  replace (w - 1 - (w - 1 - x)) with x in H by lia. exact H.
Qed.

(** The same rotation twice is a half turn: after two Rotate90 blits, or
    two Rotate270 blits, shadow pixel [(x, y)] is at
    [(w - 1 - x, h - 1 - y)]. *)
Theorem same_rotation_twice_is_half_turn (d : depth) (r : Z) (sh : mem)
    (pitch w h dw1 dw2 : Z) (fb1 fb2 : mem) :
  r = 1 \/ r = -1 ->
  0 <= w -> 0 <= h ->
  w mod group_of d = 0 -> h mod group_of d = 0 ->
  pitch_aligned d pitch ->
  h * Bpp_of d <= fb_pitch BitmapBytePad d (screen d dw1 h w) ->
  w * Bpp_of d <= fb_pitch BitmapBytePad d (screen d dw2 w h) ->
  exists out,
    blit_twice BitmapBytePad d r r sh pitch w h dw1 dw2 fb1 fb2
    = Some out /\
    forall x y c, 0 <= x < w -> 0 <= y < h -> 0 <= c < Bpp_of d ->
      out (fb_px BitmapBytePad d (screen d dw2 w h)
             (w - 1 - x) (h - 1 - y) + c)
      = sh (y * pitch + x * Bpp_of d + c).
Proof.
  intros R Hw Hh Aw Ah Ap P1 P2.
  destruct (blit_twice_content d r r sh pitch w h dw1 dw2 fb1 fb2)
    as (out & E & H); try assumption.
  exists out. split; [exact E|]. intros x y c Hx Hy Hc.
  specialize (H x y c Hx Hy Hc). unfold rot_px in H.
  cbn [rotate screen virtualX virtualY] in H.
  destruct R as [-> | ->]; cbn [Z.eqb Pos.eqb fst snd] in H; exact H.
Qed.

End TwoPassProofs.

Lemma rot270_then_90_lossless_witness :
  exists out,
    blit_twice pad32 bpp16 (-1) 1 ramp 8 4 4 4 4 blank blank = Some out /\
    forall x y c, 0 <= x < 4 -> 0 <= y < 4 -> 0 <= c < 2 ->
      out (fb_px pad32 bpp16 (screen bpp16 4 4 4) x y + c)
      = ramp (y * 8 + x * 2 + c).
Proof.
  apply (rot270_then_90_lossless pad32 bpp16 ramp 8 4 4 4 4 blank blank);
    cbn; try reflexivity; lia.
Defined.

Lemma same_rotation_twice_is_half_turn_witness :
  exists out,
    blit_twice pad32 bpp8 1 1 ramp 4 4 8 8 4 blank blank = Some out /\
    forall x y c, 0 <= x < 4 -> 0 <= y < 8 -> 0 <= c < 1 ->
      out (fb_px pad32 bpp8 (screen bpp8 4 4 8) (4 - 1 - x) (8 - 1 - y) + c)
      = ramp (y * 4 + x * 1 + c).
Proof.
  apply (same_rotation_twice_is_half_turn pad32 bpp8 1 ramp 4 4 8 8 4
           blank blank); cbn; try reflexivity; lia.
Defined.

(* ================================================================= *)
(** ** Loads stay within the shadow *)

Lemma in_bytes_read (es : list event) (a : Z) :
  In a (bytes_read es) <->
  exists s w, In (Load s w) es /\ s <= a < s + w.
Proof.
  unfold bytes_read. rewrite in_flat_map. split.
  - intros (e & He & Ha). destruct e as [s w|t w v]; [|destruct Ha].
    apply in_map_iff in Ha as (k & <- & Hk). apply in_seq in Hk.
    exists s, w. split; [exact He | lia].
  - intros (s & w & He & Ha). exists (Load s w). split; [exact He|].
    apply in_map_iff. exists (Z.to_nat (a - s)). split; [lia|].
    apply in_seq. lia.
Qed.

Section ReadSafety.

Variable BitmapBytePad : Z -> Z.

(** Every load of a blit is a load of bytes of a pixel of the box, rows
    widened. *)
Lemma blit_loads (d : depth) pScrn pCir b (s w : Z) :
  rotate pCir = 1 \/ rotate pCir = -1 ->
  pitch_aligned d (ShadowPitch pCir) ->
  y1 b <= y2 b ->
  In (Load s w) (blit_events BitmapBytePad d pScrn pCir b) ->
  exists x y c,
    x1 b <= x < x2 b /\ row_lo d (y1 b) <= y < row_hi d (y2 b) /\
    0 <= c /\ c + w <= Bpp_of d /\ s = src_px d pCir x y + c.
Proof.
  intros Hr Ha Hy Hin.
  pose proof (rounds_eq d b) as RE.
  pose proof (rounds_nonneg d b Hy) as RN.
  pose proof (group_of_pos d) as G.
  pose proof (src_pitch_eq d pCir Hr Ha) as SPE.
  unfold blit_events, src_start in Hin. unfold src_px.
  rewrite SPE in Hin.
  apply in_tab in Hin as (i & Hi & Hin).
  apply in_tab in Hin as (j & Hj & Hin).
  apply group_loads in Hin as (r & c & Hr' & Hc & Hcw & ->).
  rewrite Z2Nat.id in Hj by lia.
  set (g := group_of d) in *. set (S := ShadowPitch pCir) in *.
  set (Y1 := row_lo d (y1 b)) in *. set (Y2 := row_hi d (y2 b)) in *.
  destruct Hr as [R|R]; rewrite R; cbn [Z.eqb Pos.eqb].
  - exists (x1 b + i), (Y2 - 1 - (g * j + r)), c.
    repeat split; first [lia | nia].
  - exists (x2 b - 1 - i), (Y1 + (g * j + r)), c.
    repeat split; first [lia | nia].
Qed.

(** Under the contract, with the widened rows of every box inside the
    shadow, a refresh reads no byte outside the shadow's extents. *)
Theorem refresh_loads_within_shadow e pScrn pCir b m :
  engine_ok e pCir ->
  box_fits BitmapBytePad e pScrn b ->
  shadow_pitch_holds e pScrn pCir ->
  exists m' es,
    refresh BitmapBytePad e pScrn pCir [b] m = Some (tt, m') /\
    trace m' = trace m ++ es /\
    Forall (fun a => shadow_extent e pScrn pCir a = true) (bytes_read es).
Proof.
  intros Hok Hf Hs. do 2 eexists. split.
  { apply refresh_closed. constructor; [|constructor].
    exact (box_fits_runs BitmapBytePad e pScrn b Hf). }
  split; [reflexivity|]. cbn [flat_map]. rewrite app_nil_r.
  apply Forall_forall. intros a Ha.
  apply in_bytes_read in Ha as (s & w & He & Ha).
  destruct e as [|d]; unfold box_fits in Hf;
    cbn [engine_events engine_ok box_in_shadow rows_in_shadow
         shadow_pitch_holds shadow_extent] in *.
  - destruct Hf as ((Hx & Hx2 & Hy & Hy2 & Hb & Hp) & _).
    unfold copy_events in He. apply in_tab in He as (r & Hr & He).
    apply in_tab in He as (k & Hk & He).
    destruct He as [He|[He|[]]]; [|discriminate He].
    injection He as <- <-.
    assert (BN : 0 <= Z.shiftr (bitsPerPixel pScrn) 3)
      by (apply Z.shiftr_nonneg; lia).
    set (Bpp := Z.shiftr (bitsPerPixel pScrn) 3) in *.
    rewrite Z2Nat.id in Hr by lia. rewrite Z2Nat.id in Hk by nia.
    replace a with ((y1 b + r) * ShadowPitch pCir + (x1 b * Bpp + k))
      by lia.
    apply in_fb_intro; [lia | nia | exact Hs].
  - destruct Hf as ((Hx & Hx2 & Hy & Hy2 & Hp) & Hrow).
    destruct Hok as [Hr Hal].
    apply (blit_loads d pScrn pCir b s w Hr Hal ltac:(lia)) in He
      as (x & y & c & X & Y & C & Cw & ->).
    pose proof (row_lo_eq d (y1 b)) as L.
    pose proof (group_of_pos d) as G. pose proof (Bpp_of_pos d) as BP.
    assert (0 <= y1 b / group_of d) by (apply Z.div_pos; lia).
    unfold src_px in *.
    replace a with (y * ShadowPitch pCir
                    + (x * Bpp_of d
                       + (a - (y * ShadowPitch pCir + x * Bpp_of d))))
      by ring.
    apply in_fb_intro; [nia | nia | exact Hs].
Qed.

(** At 32 bpp nothing is widened: for any box that meets the contract the
    blit puts every pixel of the box at its rotated place, changes no
    other byte of the framebuffer and stores nothing outside it. *)
Theorem blit32_exact pScrn pCir b m :
  rotate pCir = 1 \/ rotate pCir = -1 ->
  ShadowPitch pCir mod 4 = 0 ->
  box_in_shadow BitmapBytePad (RotatingBlitter bpp32) pScrn b ->
  exists m' es,
    cirRefreshArea32 pScrn pCir [b] m = Some (tt, m') /\
    trace m' = trace m ++ es /\
    Forall (fun a => fb_extent BitmapBytePad (RotatingBlitter bpp32)
                       pScrn a = true) (bytes_written es) /\
    (forall x y c,
        x1 b <= x < x2 b -> y1 b <= y < y2 b -> 0 <= c < 4 ->
        FbBase m' (dst_px BitmapBytePad bpp32 pScrn pCir x y + c)
        = ShadowPtr pCir (src_px bpp32 pCir x y + c)) /\
    (forall a,
        (forall x y c,
            x1 b <= x < x2 b -> y1 b <= y < y2 b -> 0 <= c < 4 ->
            a <> dst_px BitmapBytePad bpp32 pScrn pCir x y + c) ->
        FbBase m' a = FbBase m a).
Proof.
  intros Hr Ha Hb.
  assert (Hf : box_fits BitmapBytePad (RotatingBlitter bpp32) pScrn b).
  { split; [exact Hb|]. cbn [rows_in_shadow box_in_shadow] in *.
    rewrite row_hi_32. lia. }
  assert (Hok : engine_ok (RotatingBlitter bpp32) pCir) by (split; assumption).
  do 2 eexists. split.
  { apply (cirRefreshArea32_closed BitmapBytePad). constructor; [|constructor].
    exact (box_fits_runs BitmapBytePad (RotatingBlitter bpp32) pScrn b Hf). }
  split; [reflexivity|]. cbn [flat_map]. rewrite app_nil_r.
  destruct Hf as [_ Hrow].
  split; [|split].
  - apply Forall_forall. intros a Hin.
    now apply (blit_stores_within BitmapBytePad bpp32 pScrn pCir b).
  - intros x y c X Y C. cbn [emit FbBase]. rewrite replay_last_write.
    destruct (refresh_list_last_write BitmapBytePad (RotatingBlitter bpp32)
                pScrn pCir [b] (dst_px BitmapBytePad bpp32 pScrn pCir x y + c)
                Hok) as [H _].
    { constructor; [split; assumption | constructor]. }
    cbn [flat_map engine_events] in H. rewrite app_nil_r in H.
    rewrite (H b (ShadowPtr pCir (src_px bpp32 pCir x y + c)));
      [reflexivity | now left |].
    cbn [byte_image]. exists x, y, c. rewrite row_lo_32, row_hi_32.
    cbn [Bpp_of]. repeat split; lia.
  - intros a Hn. cbn [emit FbBase]. rewrite replay_last_write.
    destruct (refresh_list_last_write BitmapBytePad (RotatingBlitter bpp32)
                pScrn pCir [b] a Hok) as [_ H].
    { constructor; [split; assumption | constructor]. }
    cbn [flat_map engine_events] in H. rewrite app_nil_r in H.
    rewrite H; [reflexivity|].
    intros b' v [<-|[]] (x & y & c & X & Y & C & E & _).
    rewrite row_lo_32, row_hi_32 in Y. cbn [Bpp_of] in C.
    now apply (Hn x y c X Y C).
Qed.


End ReadSafety.

Lemma refresh_loads_within_shadow_witness :
  exists m' es,
    refresh pad32 (RotatingBlitter bpp8) (screen bpp8 8 8 4)
      {| ShadowPtr := ramp; ShadowPitch := 4; rotate := 1 |}
      [ {| x1 := 1; y1 := 5; x2 := 3; y2 := 7 |} ]
      {| FbBase := blank; trace := [] |} = Some (tt, m') /\
    trace m' = [] ++ es /\
    Forall (fun a => shadow_extent (RotatingBlitter bpp8) (screen bpp8 8 8 4)
                       {| ShadowPtr := ramp; ShadowPitch := 4; rotate := 1 |}
                       a = true) (bytes_read es).
Proof.
  apply (refresh_loads_within_shadow pad32 (RotatingBlitter bpp8)
           (screen bpp8 8 8 4)
           {| ShadowPtr := ramp; ShadowPitch := 4; rotate := 1 |}
           {| x1 := 1; y1 := 5; x2 := 3; y2 := 7 |}
           {| FbBase := blank; trace := [] |}).
  - cbn. split; [lia | exact I].
  - split; cbn; lia.
  - cbn. lia.
Defined.

Lemma blit32_exact_witness :
  exists m' es,
    cirRefreshArea32 (screen bpp32 5 5 3)
      {| ShadowPtr := ramp; ShadowPitch := 12; rotate := 1 |}
      [full_box 3 5] {| FbBase := blank; trace := [] |} = Some (tt, m') /\
    trace m' = [] ++ es /\
    Forall (fun a => fb_extent pad32 (RotatingBlitter bpp32)
                       (screen bpp32 5 5 3) a = true) (bytes_written es).
Proof.
  destruct (blit32_exact pad32 (screen bpp32 5 5 3)
              {| ShadowPtr := ramp; ShadowPitch := 12; rotate := 1 |}
              (full_box 3 5) {| FbBase := blank; trace := [] |})
    as (m' & es & E & T & F & _).
  - cbn. lia.
  - reflexivity.
  - cbn. lia.
  - exists m', es. split; [exact E|]. split; [exact T | exact F].
Defined.

Section OnceProofs.

Variable BitmapBytePad : Z -> Z.



End OnceProofs.

